(** * Cubical complexes of occupancy grids: [CubeMap] and
      [EulerCharacteristic_seq] of [src/ViteBetti.py]

    The two functions of [ViteBetti.py] are embedded as executable Rocq
    functions over a small model of numpy arrays (a shape and a row-major
    buffer) inside an error monad for the Python exceptions the code can
    raise.  The theorems below relate them to the description of the
    cubical complex: a cell of the doubled lattice is present exactly when
    every voxel at one of its corners is occupied. *)

From Stdlib Require Import ZArith QArith Lia List Bool String.
From stdpp Require Import base tactics option list list_numbers.

Local Open Scope Z_scope.

(** ** Python exceptions and the error monad *)

(** The exceptions the two functions can raise: [ValueError] (tuple
    unpacking of [arr.shape] with a wrong number of items, [np.zeros] with
    a negative dimension) and [IndexError] (an index out of bounds). *)
Inductive exn : Set :=
| ValueError
| IndexError.

(** The class name of an exception, as Python prints it. *)
Definition exn_name (e : exn) : string :=
  match e with
  | ValueError => "ValueError"
  | IndexError => "IndexError"
  end%string.

Inductive result (A : Type) : Type :=
| Ok (a : A)
| Raise (e : exn).
Arguments Ok {A} a.
Arguments Raise {A} e.

Definition bind {A B : Type} (m : result A) (f : A -> result B) : result B :=
  match m with
  | Ok a => f a
  | Raise e => Raise e
  end.

Notation "'let*' x ':=' m 'in' k" := (bind m (fun x => k))
  (at level 10, x name, m at level 100, k at level 200).
Notation "'let*' ' p ':=' m 'in' k" :=
  (bind m (fun x => match x with p => k end))
  (at level 10, p pattern, m at level 100, k at level 200).

(** [for i in xrange(n): s = body i s], stopping at the first exception. *)
Fixpoint for_each {S : Type} (l : list Z) (body : Z -> S -> result S) (s : S)
  : result S :=
  match l with
  | [] => Ok s
  | i :: l' => let* s' := body i s in for_each l' body s'
  end.

Definition xrange (n : Z) : list Z := seqZ 0 n.

Definition for_range {S : Type} (n : Z) (body : Z -> S -> result S) (s : S)
  : result S :=
  for_each (xrange n) body s.

(** ** Scalars

    An array element is a number; the code only ever asks three things of
    it: whether it is truthy ([if v:], that is [v != 0]), whether
    [v == 0] and whether [v == 1].  Rationals answer all three the way
    numpy scalars do. *)
Definition truthy (v : Q) : bool := negb (Qeq_bool v 0).

(** ** numpy arrays: a shape and a row-major (C order) buffer *)
Record ndarray : Type := mk_ndarray {
  shape : list Z;
  data : list Q
}.

Definition size_of (sh : list Z) : Z := foldr Z.mul 1 sh.

(** What numpy maintains for every array it builds. *)
Definition well_formed (a : ndarray) : Prop :=
  Forall (fun n => 0 <= n) (shape a) /\
  length (data a) = Z.to_nat (size_of (shape a)).

(** [np.zeros(sh)]: negative dimensions are refused with [ValueError]. *)
Definition np_zeros (sh : list Z) : result ndarray :=
  if forallb (fun n => 0 <=? n) sh
  then Ok (mk_ndarray sh (replicate (Z.to_nat (size_of sh)) 0%Q))
  else Raise ValueError.

(** [a, b, c = t]: anything but three items raises [ValueError]. *)
Definition unpack3 (t : list Z) : result (Z * Z * Z) :=
  match t with
  | [a; b; c] => Ok (a, b, c)
  | _ => Raise ValueError
  end.

(** One index of a subscript on an axis of extent [n]: a negative index
    counts from the end, anything outside [-n, n) raises [IndexError]. *)
Definition norm_index (n i : Z) : result Z :=
  if (0 <=? i) && (i <? n) then Ok i
  else if (- n <=? i) && (i <? 0) then Ok (i + n)
  else Raise IndexError.

Definition offset (n1 n2 i j k : Z) : Z := (i * n1 + j) * n2 + k.

(** [a[i,j,k]] on an array of rank 3.  Both functions subscript an array
    only after its shape was unpacked into three extents, so that the
    other ranks are never subscripted; they are given [IndexError]. *)
Definition getitem (a : ndarray) (i j k : Z) : result Q :=
  match shape a with
  | [n0; n1; n2] =>
      let* i' := norm_index n0 i in
      let* j' := norm_index n1 j in
      let* k' := norm_index n2 k in
      match data a !! Z.to_nat (offset n1 n2 i' j' k') with
      | Some v => Ok v
      | None => Raise IndexError
      end
  | _ => Raise IndexError
  end.

(** [a[i,j,k] = v], in place: the new state of the array. *)
Definition setitem (a : ndarray) (i j k : Z) (v : Q) : result ndarray :=
  match shape a with
  | [n0; n1; n2] =>
      let* i' := norm_index n0 i in
      let* j' := norm_index n1 j in
      let* k' := norm_index n2 k in
      match data a !! Z.to_nat (offset n1 n2 i' j' k') with
      | Some _ =>
          Ok (mk_ndarray (shape a)
                (<[Z.to_nat (offset n1 n2 i' j' k') := v]> (data a)))
      | None => Raise IndexError
      end
  | _ => Raise IndexError
  end.

(** ** Python's boolean operators on subscripts *)

(** [if e:] on an element. *)
Definition truth (e : result Q) : result bool := let* v := e in Ok (truthy v).

(** [e == q] on an element. *)
Definition equals (e : result Q) (q : Q) : result bool :=
  let* v := e in Ok (Qeq_bool v q).

(** [x and y]: [y] is evaluated only when [x] is true. *)
Definition and_then (x y : result bool) : result bool :=
  let* b := x in if b then y else Ok false.

Infix "&&&" := and_then (at level 40, left associativity).

(** ** [CubeMap] *)

Section Passes.
(** The extents of the cube map, [Nx, Ny, Nz = 2*nx-1, 2*ny-1, 2*nz-1]. *)
Variables Nx Ny Nz : Z.

(** Body of the loop under [## Vertices]. *)
Definition vertices_body (arr : ndarray) (i j k : Z) (cubemap : ndarray)
  : result ndarray :=
  let* b := truth (getitem arr i j k) in
  if b then setitem cubemap (i * 2) (j * 2) (k * 2) 1%Q else Ok cubemap.

(** Body of the loop under [## Edges]: an [if]/[elif]/[elif] cascade
    under [if cubemap[i,j,k] == 0]. *)
Definition edges_body (i j k : Z) (cubemap : ndarray) : result ndarray :=
  let* z := equals (getitem cubemap i j k) 0 in
  if z then
    let* b1 := truth (getitem cubemap ((i - 1) mod Nx) j k)
         &&& truth (getitem cubemap ((i + 1) mod Nx) j k) in
    if b1 then setitem cubemap i j k 1%Q else
    let* b2 := truth (getitem cubemap i ((j - 1) mod Ny) k)
         &&& truth (getitem cubemap i ((j + 1) mod Ny) k) in
    if b2 then setitem cubemap i j k 1%Q else
    let* b3 := truth (getitem cubemap i j ((k - 1) mod Nz))
         &&& truth (getitem cubemap i j ((k + 1) mod Nz)) in
    if b3 then setitem cubemap i j k 1%Q else Ok cubemap
  else Ok cubemap.

(** Body of the loop under [## Faces]; the third test of the first rule
    is the one written [== 1] in the source. *)
Definition faces_body (i j k : Z) (cubemap : ndarray) : result ndarray :=
  let* z := equals (getitem cubemap i j k) 0 in
  if z then
    let* b1 := truth (getitem cubemap ((i - 1) mod Nx) j k)
         &&& truth (getitem cubemap ((i + 1) mod Nx) j k)
         &&& equals (getitem cubemap i ((j - 1) mod Ny) k) 1
         &&& truth (getitem cubemap i ((j + 1) mod Ny) k) in
    if b1 then setitem cubemap i j k 1%Q else
    let* b2 := truth (getitem cubemap i ((j - 1) mod Ny) k)
         &&& truth (getitem cubemap i ((j + 1) mod Ny) k)
         &&& truth (getitem cubemap i j ((k - 1) mod Nz))
         &&& truth (getitem cubemap i j ((k + 1) mod Nz)) in
    if b2 then setitem cubemap i j k 1%Q else
    let* b3 := truth (getitem cubemap i j ((k - 1) mod Nz))
         &&& truth (getitem cubemap i j ((k + 1) mod Nz))
         &&& truth (getitem cubemap ((i - 1) mod Nx) j k)
         &&& truth (getitem cubemap ((i + 1) mod Nx) j k) in
    if b3 then setitem cubemap i j k 1%Q else Ok cubemap
  else Ok cubemap.

(** Body of the loop under [## Cubes]: three nested [if]s. *)
Definition cubes_body (i j k : Z) (cubemap : ndarray) : result ndarray :=
  let* z := equals (getitem cubemap i j k) 0 in
  if z then
    let* b1 := truth (getitem cubemap ((i - 1) mod Nx) j k)
         &&& truth (getitem cubemap ((i + 1) mod Nx) j k) in
    if b1 then
      let* b2 := truth (getitem cubemap i ((j - 1) mod Ny) k)
           &&& truth (getitem cubemap i ((j + 1) mod Ny) k) in
      if b2 then
        let* b3 := truth (getitem cubemap i j ((k - 1) mod Nz))
             &&& truth (getitem cubemap i j ((k + 1) mod Nz)) in
        if b3 then setitem cubemap i j k 1%Q else Ok cubemap
      else Ok cubemap
    else Ok cubemap
  else Ok cubemap.
End Passes.

(** The three nested [for] loops every pass is made of. *)
Definition for_range3 {S : Type} (n0 n1 n2 : Z)
    (body : Z -> Z -> Z -> S -> result S) : S -> result S :=
  for_range n0 (fun i =>
    for_range n1 (fun j =>
      for_range n2 (fun k => body i j k))).

Definition CubeMap (arr : ndarray) : result ndarray :=
  let* '(nx, ny, nz) := unpack3 (shape arr) in
  let '(Nx, Ny, Nz) := (2 * nx - 1, 2 * ny - 1, 2 * nz - 1) in
  let* cubemap := np_zeros [Nx; Ny; Nz] in
  let* cubemap := for_range3 nx ny nz (vertices_body arr) cubemap in
  let* cubemap := for_range3 Nx Ny Nz (edges_body Nx Ny Nz) cubemap in
  let* cubemap := for_range3 Nx Ny Nz (faces_body Nx Ny Nz) cubemap in
  let* cubemap := for_range3 Nx Ny Nz (cubes_body Nx Ny Nz) cubemap in
  Ok cubemap.

(** ** [EulerCharacteristic_seq] *)

Definition euler_body (A : ndarray) (x y z : Z) (chi : Z) : result Z :=
  let* b := equals (getitem A x y z) 1 in
  if b then
    if (x + y + z) mod 2 =? 0 then Ok (chi + 1) else Ok (chi - 1)
  else Ok chi.

Definition EulerCharacteristic_seq (A : ndarray) : result Z :=
  let chi := 0 in
  let* '(nx, ny, nz) := unpack3 (shape A) in
  let* chi := for_range3 nx ny nz (euler_body A) chi in
  Ok chi.

(** ** The snapshot variant of the passes

    The variant of the edge and face passes in which every test of a pass
    reads the cube map as it stood when the pass began ([old]), and only
    the stores go to the array under construction. *)

Section SnapshotPasses.
Variables Nx Ny Nz : Z.

Definition edges_body_snapshot (old : ndarray) (i j k : Z)
    (cubemap : ndarray) : result ndarray :=
  let* z := equals (getitem old i j k) 0 in
  if z then
    let* b1 := truth (getitem old ((i - 1) mod Nx) j k)
         &&& truth (getitem old ((i + 1) mod Nx) j k) in
    if b1 then setitem cubemap i j k 1%Q else
    let* b2 := truth (getitem old i ((j - 1) mod Ny) k)
         &&& truth (getitem old i ((j + 1) mod Ny) k) in
    if b2 then setitem cubemap i j k 1%Q else
    let* b3 := truth (getitem old i j ((k - 1) mod Nz))
         &&& truth (getitem old i j ((k + 1) mod Nz)) in
    if b3 then setitem cubemap i j k 1%Q else Ok cubemap
  else Ok cubemap.

Definition faces_body_snapshot (old : ndarray) (i j k : Z)
    (cubemap : ndarray) : result ndarray :=
  let* z := equals (getitem old i j k) 0 in
  if z then
    let* b1 := truth (getitem old ((i - 1) mod Nx) j k)
         &&& truth (getitem old ((i + 1) mod Nx) j k)
         &&& equals (getitem old i ((j - 1) mod Ny) k) 1
         &&& truth (getitem old i ((j + 1) mod Ny) k) in
    if b1 then setitem cubemap i j k 1%Q else
    let* b2 := truth (getitem old i ((j - 1) mod Ny) k)
         &&& truth (getitem old i ((j + 1) mod Ny) k)
         &&& truth (getitem old i j ((k - 1) mod Nz))
         &&& truth (getitem old i j ((k + 1) mod Nz)) in
    if b2 then setitem cubemap i j k 1%Q else
    let* b3 := truth (getitem old i j ((k - 1) mod Nz))
         &&& truth (getitem old i j ((k + 1) mod Nz))
         &&& truth (getitem old ((i - 1) mod Nx) j k)
         &&& truth (getitem old ((i + 1) mod Nx) j k) in
    if b3 then setitem cubemap i j k 1%Q else Ok cubemap
  else Ok cubemap.

Definition cubes_body_snapshot (old : ndarray) (i j k : Z)
    (cubemap : ndarray) : result ndarray :=
  let* z := equals (getitem old i j k) 0 in
  if z then
    let* b1 := truth (getitem old ((i - 1) mod Nx) j k)
         &&& truth (getitem old ((i + 1) mod Nx) j k) in
    if b1 then
      let* b2 := truth (getitem old i ((j - 1) mod Ny) k)
           &&& truth (getitem old i ((j + 1) mod Ny) k) in
      if b2 then
        let* b3 := truth (getitem old i j ((k - 1) mod Nz))
             &&& truth (getitem old i j ((k + 1) mod Nz)) in
        if b3 then setitem cubemap i j k 1%Q else Ok cubemap
      else Ok cubemap
    else Ok cubemap
  else Ok cubemap.
End SnapshotPasses.

(** [CubeMap] with the edge and face passes reading a snapshot taken at
    the start of the pass; [cubes] says whether the cube pass does so as
    well. *)
Definition CubeMap_snapshot (cubes : bool) (arr : ndarray) : result ndarray :=
  let* '(nx, ny, nz) := unpack3 (shape arr) in
  let '(Nx, Ny, Nz) := (2 * nx - 1, 2 * ny - 1, 2 * nz - 1) in
  let* cubemap := np_zeros [Nx; Ny; Nz] in
  let* cubemap := for_range3 nx ny nz (vertices_body arr) cubemap in
  let* cubemap :=
    for_range3 Nx Ny Nz (edges_body_snapshot Nx Ny Nz cubemap) cubemap in
  let* cubemap :=
    for_range3 Nx Ny Nz (faces_body_snapshot Nx Ny Nz cubemap) cubemap in
  let* cubemap :=
    (if cubes
     then for_range3 Nx Ny Nz (cubes_body_snapshot Nx Ny Nz cubemap) cubemap
     else for_range3 Nx Ny Nz (cubes_body Nx Ny Nz) cubemap) in
  Ok cubemap.

(** ** Cells of a rank-3 array *)

(** A rank-3 array of extents [n0], [n1], [n2] with a buffer of that size. *)
Definition wf3 (c : ndarray) (n0 n1 n2 : Z) : Prop :=
  shape c = [n0; n1; n2] /\ length (data c) = Z.to_nat (n0 * n1 * n2).

Definition in_range (n0 n1 n2 i j k : Z) : Prop :=
  0 <= i < n0 /\ 0 <= j < n1 /\ 0 <= k < n2.

(** The element a successful subscript returns. *)
Definition cell (c : ndarray) (i j k : Z) : Q :=
  match getitem c i j k with
  | Ok v => v
  | Raise _ => 0%Q
  end.

(** ** The cubical complex of an occupancy grid *)

(** A voxel is occupied when its element is truthy. *)
Definition occupied (arr : ndarray) (i j k : Z) : bool :=
  truthy (cell arr i j k).

(** The voxels at the two ends of lattice coordinate [x]: once [x / 2] for
    an even [x], and [(x - 1) / 2], [(x + 1) / 2] for an odd one. *)
Definition ends (x : Z) : list Z := [x / 2; (x + 1) / 2].

(** The cell [(x, y, z)] of the doubled lattice has all its corner voxels
    occupied. *)
Definition all_corners (arr : ndarray) (x y z : Z) : bool :=
  forallb (fun i =>
    forallb (fun j =>
      forallb (fun k => occupied arr i j k) (ends z)) (ends y)) (ends x).

(** The dimension of a lattice cell: the number of its odd coordinates. *)
Definition dim (x y z : Z) : Z := x mod 2 + y mod 2 + z mod 2.

Definition corners_occupied (arr : ndarray) (x y z : Z) : Prop :=
  forall i j k, In i (ends x) -> In j (ends y) -> In k (ends z) ->
                occupied arr i j k = true.

(** *** What the passes maintain

    [P] says which cells belong to the complex. *)
Section Stages.
Variable P : Z -> Z -> Z -> Prop.
Variables Nx Ny Nz : Z.

(** Every cell holds 0 or 1, and a cell that holds 1 is in the complex. *)
Definition Sound (c : ndarray) : Prop :=
  wf3 c Nx Ny Nz /\
  forall x y z, in_range Nx Ny Nz x y z ->
    cell c x y z = 0%Q \/ (cell c x y z = 1%Q /\ P x y z).

(** The cells of the complex of dimension at most [d] hold 1. *)
Definition Done (d : Z) (c : ndarray) : Prop :=
  forall x y z, in_range Nx Ny Nz x y z ->
    P x y z -> dim x y z <= d -> cell c x y z = 1%Q.

(** No cell that holds 1 is ever cleared. *)
Definition grows (c c' : ndarray) : Prop :=
  forall x y z, in_range Nx Ny Nz x y z ->
    cell c x y z = 1%Q -> cell c' x y z = 1%Q.

(** The tests of the passes along one axis: both neighbours are truthy. *)
Definition pair_x (c : ndarray) (i j k : Z) : bool :=
  truthy (cell c ((i - 1) mod Nx) j k) && truthy (cell c ((i + 1) mod Nx) j k).
Definition pair_y (c : ndarray) (i j k : Z) : bool :=
  truthy (cell c i ((j - 1) mod Ny) k) && truthy (cell c i ((j + 1) mod Ny) k).
Definition pair_z (c : ndarray) (i j k : Z) : bool :=
  truthy (cell c i j ((k - 1) mod Nz)) && truthy (cell c i j ((k + 1) mod Nz)).

Definition edges_rule (c : ndarray) (i j k : Z) : bool :=
  pair_x c i j k || pair_y c i j k || pair_z c i j k.

Definition faces_rule (c : ndarray) (i j k : Z) : bool :=
  (truthy (cell c ((i - 1) mod Nx) j k)
   && truthy (cell c ((i + 1) mod Nx) j k)
   && Qeq_bool (cell c i ((j - 1) mod Ny) k) 1
   && truthy (cell c i ((j + 1) mod Ny) k))
  || (pair_y c i j k && pair_z c i j k)
  || (pair_z c i j k && pair_x c i j k).

Definition cubes_rule (c : ndarray) (i j k : Z) : bool :=
  pair_x c i j k && pair_y c i j k && pair_z c i j k.
End Stages.

(** ** The signed count of the cells that hold 1

    The Euler characteristic as a count: the cells equal to 1 whose
    coordinates have an even sum, minus those whose coordinates have an odd
    sum. *)

(** The indices of an array of shape [(nx, ny, nz)]. *)
Definition lattice (nx ny nz : Z) : list (Z * Z * Z) :=
  flat_map (fun x =>
    flat_map (fun y =>
      map (fun z => (x, y, z)) (xrange nz)) (xrange ny)) (xrange nx).

Definition is_one (A : ndarray) (p : Z * Z * Z) : bool :=
  let '(x, y, z) := p in Qeq_bool (cell A x y z) 1.

Definition even_sum (p : Z * Z * Z) : bool :=
  let '(x, y, z) := p in Z.even (x + y + z).

Definition odd_sum (p : Z * Z * Z) : bool :=
  let '(x, y, z) := p in Z.odd (x + y + z).

Definition signed_count (A : ndarray) : Z :=
  match shape A with
  | [nx; ny; nz] =>
      let ones := List.filter (is_one A) (lattice nx ny nz) in
      Z.of_nat (length (List.filter even_sum ones))
      - Z.of_nat (length (List.filter odd_sum ones))
  | _ => 0
  end.

(** What one cell adds to the running sum of [EulerCharacteristic_seq]. *)
Definition contribution (A : ndarray) (p : Z * Z * Z) : Z :=
  let '(x, y, z) := p in
  if Qeq_bool (cell A x y z) 1
  then (if (x + y + z) mod 2 =? 0 then 1 else -1)
  else 0.

Definition sumZ (l : list Z) : Z := foldr Z.add 0 l.

(** ** Failing with a named exception *)

Definition raises {A : Type} (r : result A) (name : string) : Prop :=
  exists e, r = Raise e /\ exn_name e = name.

(** ** Sample arrays *)

(** Two adjacent occupied voxels along x. *)
Definition two_voxels : ndarray := mk_ndarray [2; 1; 1] [1%Q; 1%Q].

(** A 2 x 2 x 1 grid with three occupied voxels, one of them stored as
    [2]. *)
Definition corner_grid : ndarray :=
  mk_ndarray [2; 2; 1] [1%Q; 2%Q; 0%Q; 1%Q].

(** The same grid with binary values. *)
Definition binary_grid : ndarray :=
  mk_ndarray [2; 2; 1] [1%Q; 1%Q; 0%Q; 1%Q].

(** An all-zero 2 x 1 x 2 grid. *)
Definition empty_grid : ndarray :=
  mk_ndarray [2; 1; 2] [0%Q; 0%Q; 0%Q; 0%Q].

(** A grid without any cell equal to 1. *)
Definition halves_grid : ndarray :=
  mk_ndarray [1; 2; 2] [0%Q; 2%Q; (1 # 2)%Q; (-1)%Q].

(** A rank-2 array, a rank-4 array and a rank-3 array with a zero-length
    axis. *)
Definition flat_array : ndarray := mk_ndarray [2; 2] [1%Q; 0%Q; 0%Q; 1%Q].
Definition deep_array : ndarray := mk_ndarray [1; 1; 1; 1] [1%Q].
Definition zero_axis_array : ndarray := mk_ndarray [0; 1; 1] [].

(** ** Counting the cells of an array *)

(** The number of cells equal to 1. *)
Definition count_ones (A : ndarray) : Z :=
  match shape A with
  | [nx; ny; nz] =>
      Z.of_nat (length (List.filter (is_one A) (lattice nx ny nz)))
  | _ => 0
  end.

Definition has_dim (d : Z) (p : Z * Z * Z) : bool :=
  let '(x, y, z) := p in dim x y z =? d.

(** The number of cells equal to 1 among the cells of dimension [d]:
    vertices for 0, edges for 1, faces for 2, cubes for 3. *)
Definition count_dim (A : ndarray) (d : Z) : Z :=
  match shape A with
  | [nx; ny; nz] =>
      Z.of_nat (length (List.filter (fun p => is_one A p && has_dim d p)
                          (lattice nx ny nz)))
  | _ => 0
  end.

(** The number of cells of dimension [d] of the complex of a grid of
    shape [(nx, ny, nz)], counted on the grid itself: occupied voxels for
    0, pairs of adjacent occupied voxels for 1, fully occupied 2 x 2
    squares for 2 and fully occupied 2 x 2 x 2 blocks for 3. *)
Definition in_complex (arr : ndarray) (p : Z * Z * Z) : bool :=
  let '(x, y, z) := p in all_corners arr x y z.

Definition count_complex (arr : ndarray) (nx ny nz d : Z) : Z :=
  Z.of_nat (length (List.filter
    (fun p => in_complex arr p && has_dim d p)
    (lattice (2 * nx - 1) (2 * ny - 1) (2 * nz - 1)))).

(** The sign a cell equal to 1 at coordinate sum [n] enters the sum with. *)
Definition sign (n : Z) : Z := if n mod 2 =? 0 then 1 else -1.

(** A fully occupied 2 x 2 x 1 grid. *)
Definition full_grid : ndarray :=
  mk_ndarray [2; 2; 1] [1%Q; 1%Q; 1%Q; 1%Q].

(** * The halo catalogue readers of [t2c/halo_list.py]

    [HaloList.read_from_file] and [HaloRockstar.read_from_file] read a
    text file line by line and append one [Halo] per selected line to
    [self.halos].  The readers are embedded with their control flow, their
    indexing and their exceptions.  What Python itself provides is a
    parameter: the floats and their conversions ([PyFloat]), [str.split]
    and the slice [s[:-1]] ([PyStr]); so are the constants [conv.M_grid]
    and [const.solar_masses_per_gram], whose modules are not among the
    sources, and the lines [fileinput.input] yields for a file name.
    [print_msg], of [helper_functions], prints a progress message; the
    messages are not part of the model. *)
Module Halos.

Inductive exception : Set :=
| ValueError
| IndexError
| NameError
| TypeError
| ZeroDivisionError
| OverflowError
| IOError.

(** How a call ends: it returns a value or raises. *)
Inductive ret (A : Type) : Type :=
| Return (a : A)
| Raises (e : exception).
Arguments Return {A} a.
Arguments Raises {A} e.

Definition chain {A B : Type} (m : ret A) (f : A -> ret B) : ret B :=
  match m with
  | Return a => f a
  | Raises e => Raises e
  end.

Notation "'let!' x ':=' m 'in' k" := (chain m (fun x => k))
  (at level 10, x name, m at level 100, k at level 200).

(** Python floats: [float(s)] and the element conversion of
    [ndarray.astype(float)] ([None] when they raise [ValueError]),
    [a * b], [a / b] ([None] when it raises [ZeroDivisionError]),
    [a - b], [a < b], [bool(a)], the constant [1.] and
    [int(round(a, 0))], which raises [ValueError] on a NaN and
    [OverflowError] on an infinity. *)
Inductive int_of_float : Set :=
| IntOf (n : Z)
| OfNaN
| OfInf.

Class PyFloat (F : Type) : Type := {
  float : string -> option F;
  astype_float : string -> option F;
  fmul : F -> F -> F;
  fdiv : F -> F -> option F;
  fsub : F -> F -> F;
  flt : F -> F -> bool;
  ftruthy : F -> bool;
  fone : F;
  int_round : F -> int_of_float
}.

(** Python strings: [s.split()] and [s[:-1]]. *)
Class PyStr : Type := {
  split : string -> list string;
  but_last : string -> string
}.

(** [l[i]] for [i >= 0], [l[-k]] for [k >= 1], [l[i:i+3]] and
    [l.index(x)] on lists. *)
Definition item {A : Type} (l : list A) (i : nat) : ret A :=
  match nth_error l i with
  | Some a => Return a
  | None => Raises IndexError
  end.

Definition item_from_end {A : Type} (l : list A) (k : nat) : ret A :=
  if (length l <? k)%nat then Raises IndexError
  else item l (length l - k).

Definition slice3 {A : Type} (l : list A) (i : nat) : list A :=
  firstn 3 (skipn i l).

Fixpoint index (x : string) (l : list string) : ret nat :=
  match l with
  | [] => Raises ValueError
  | y :: l' =>
      if String.eqb y x then Return 0%nat
      else let! i := index x l' in Return (S i)
  end.

Section Readers.
Context {F : Type} {py_float : PyFloat F} {py_str : PyStr}.

(** [conv.M_grid] and [const.solar_masses_per_gram]. *)
Variables M_grid solar_masses_per_gram : F.

(** The lines [fileinput.input(filename)] yields; [None] when the file
    cannot be opened, which raises [IOError] at the first line asked for. *)
Variable fileinput : string -> option (list string).

(** The text [os.path.split(filename)[1].split('halo')[0]] the redshift
    of a [HaloList] is read from. *)
Variable redshift_text : string -> string.

Definition to_float (conv : string -> option F) (s : string) : ret F :=
  match conv s with
  | Some x => Return x
  | None => Raises ValueError
  end.

(** [[float(i) for i in l]] and [np.array(l).astype(float)]: the first
    element that does not convert raises. *)
Fixpoint floats (conv : string -> option F) (l : list string)
  : ret (list F) :=
  match l with
  | [] => Return []
  | s :: l' =>
      let! x := to_float conv s in
      let! xs := floats conv l' in
      Return (x :: xs)
  end.

Definition divide (a b : F) : ret F :=
  match fdiv a b with
  | Some q => Return q
  | None => Raises ZeroDivisionError
  end.

(** [halo.mp] is an [int] in [HaloRockstar] and a [float] in
    [HaloList]. *)
Inductive number : Type :=
| Int (n : Z)
| Float (x : F).

(** The class [Halo]. *)
Record Halo : Type := mk_Halo {
  pos : list F;
  pos_cm : list F;
  vel : list F;
  l : list F;
  vel_disp : F;
  r : F;
  m : F;
  mp : number;
  solar_masses : F
}.

(** ** [HaloList] *)

Record HaloList : Type := mk_HaloList {
  hl_halos : list Halo;
  hl_filename : option string;
  hl_z : option F
}.

(** The halo built from the tokens of a selected line. *)
Definition list_halo (vals : list string) (grid_mass : F) : ret Halo :=
  let! pos := floats float (firstn 3 vals) in
  let! pos_cm := floats float (slice3 vals 3) in
  let! vel := floats float (slice3 vals 6) in
  let! l := floats float (slice3 vals 9) in
  let! t12 := item vals 12 in
  let! vel_disp := to_float float t12 in
  let! t13 := item vals 13 in
  let! r := to_float float t13 in
  let! t14 := item vals 14 in
  let! m := to_float float t14 in
  let! t15 := item vals 15 in
  let! mp := to_float float t15 in
  Return (mk_Halo pos pos_cm vel l vel_disp r m (Float mp)
            (fmul (fmul grid_mass M_grid) solar_masses_per_gram)).

(** The test [grid_mass > min_select_grid_mass and (max_select_mass ==
    None or grid_mass < max_select_grid_mass)]; [max_select_grid_mass] is
    [None] when the local was never assigned. *)
Definition selected (grid_mass min_select_grid_mass : F)
    (max_select_mass max_select_grid_mass : option F) : ret bool :=
  if flt min_select_grid_mass grid_mass then
    match max_select_mass with
    | None => Return true
    | Some _ =>
        match max_select_grid_mass with
        | Some mx => Return (flt grid_mass mx)
        | None => Raises NameError
        end
    end
  else Return false.

(** What the loop does with a line it reads, from [vals = line.split()]
    on: [self.halos] afterwards. *)
Definition list_line (min_select_grid_mass : F)
    (max_select_mass max_select_grid_mass : option F)
    (vals : list string) (halos : list Halo) : ret (list Halo) :=
  let! t := item_from_end vals 3 in
  let! grid_mass := to_float float t in
  let! sel := selected grid_mass min_select_grid_mass
                max_select_mass max_select_grid_mass in
  if sel then
    let! halo := list_halo vals grid_mass in
    Return (halos ++ [halo])
  else Return halos.

(** The loop [for line in fileinput.input(filename)] from the line in
    [lines] on: the halos read and how the call ends. *)
Fixpoint list_loop (min_select_grid_mass : F)
    (max_select_mass max_select_grid_mass : option F)
    (max_select_number startline : Z)
    (lines : list string) (linenumber : Z) (halos : list Halo)
  : list Halo * ret bool :=
  match lines with
  | [] => (halos, Return true)
  | line :: rest =>
      if linenumber <? startline then
        list_loop min_select_grid_mass max_select_mass max_select_grid_mass
          max_select_number startline rest (linenumber + 1) halos
      else if (0 <=? max_select_number)
              && (max_select_number <=? Z.of_nat (length halos)) then
        (halos, Return false)
      else
        match
          list_line min_select_grid_mass max_select_mass
            max_select_grid_mass (split line) halos
        with
        | Return halos' =>
            list_loop min_select_grid_mass max_select_mass
              max_select_grid_mass max_select_number startline rest
              (linenumber + 1) halos'
        | Raises e => (halos, Raises e)
        end
  end.

Definition HaloList_read_from_file (self : HaloList) (filename : string)
    (min_select_mass : F) (max_select_mass : option F)
    (max_select_number startline : Z) : HaloList * ret bool :=
  let self := mk_HaloList [] (Some filename) (hl_z self) in
  match to_float float (redshift_text filename) with
  | Raises e => (self, Raises e)
  | Return z =>
  let self := mk_HaloList [] (Some filename) (Some z) in
  let linenumber := 1 in
  match divide min_select_mass (fmul M_grid solar_masses_per_gram) with
  | Raises e => (self, Raises e)
  | Return min_select_grid_mass =>
  match
    (match max_select_mass with
     | Some mx =>
         if ftruthy mx then
           let! g := divide mx (fmul M_grid solar_masses_per_gram) in
           Return (Some g)
         else Return None
     | None => Return None
     end)
  with
  | Raises e => (self, Raises e)
  | Return max_select_grid_mass =>
  match fileinput filename with
  | None => (self, Raises IOError)
  | Some lines =>
      let '(halos, outcome) :=
        list_loop min_select_grid_mass max_select_mass max_select_grid_mass
          max_select_number startline lines linenumber [] in
      (mk_HaloList halos (Some filename) (Some z), outcome)
  end end end end.

(** [HaloList(filename, ...)]: the object, and the exception when the
    constructor raises. *)
Definition HaloList_init (filename : option string)
    (min_select_mass : F) (max_select_mass : option F)
    (max_select_number startline : Z) : HaloList * ret unit :=
  let self := mk_HaloList [] None None in
  match filename with
  | None => (self, Return tt)
  | Some name =>
      if String.eqb name "" then (self, Return tt)
      else
        let '(self', outcome) :=
          HaloList_read_from_file self name min_select_mass max_select_mass
            max_select_number startline in
        (self', let! _ := outcome in Return tt)
  end.

(** ** [HaloRockstar] *)

Record HaloRockstar : Type := mk_HaloRockstar {
  rs_halos : list Halo;
  rs_mass_def : string;
  rs_filename : option string;
  rs_z : option F;
  rs_cosmology : option (F * F * F);
  rs_part_mass : option F
}.

(** The locals [idx_pos], ..., [idx_m] the header line binds. *)
Record columns : Set := mk_columns {
  idx_pos : nat;
  idx_vel : nat;
  idx_l : nat;
  idx_vrms : nat;
  idx_r : nat;
  idx_m : nat
}.

Definition header_columns (mass_def line : string) : ret columns :=
  let header := split line in
  let! i_pos := index "X" header in
  let! i_vel := index "VX" header in
  let! i_l := index "JX" header in
  let! i_vrms := index "Vrms" header in
  let! i_r := index (String.append "R" mass_def) header in
  let! i_m := index (String.append "M" mass_def) header in
  Return (mk_columns i_pos i_vel i_l i_vrms i_r i_m).

Definition to_int (x : F) : ret Z :=
  match int_round x with
  | IntOf n => Return n
  | OfNaN => Raises ValueError
  | OfInf => Raises OverflowError
  end.

(** The halo built from the tokens of a data line. *)
Definition rockstar_halo (cols : columns) (part_mass : F)
    (vals : list string) : ret Halo :=
  let! pos := floats astype_float (slice3 vals (idx_pos cols)) in
  let! vel := floats astype_float (slice3 vals (idx_vel cols)) in
  let pos_cm := pos in
  let! l := floats astype_float (slice3 vals (idx_l cols)) in
  let! t_vrms := item vals (idx_vrms cols) in
  let! vel_disp := to_float float t_vrms in
  let! t_r := item vals (idx_r cols) in
  let! r := to_float float t_r in
  let! t_m := item vals (idx_m cols) in
  let! m := to_float float t_m in
  let! q := divide m part_mass in
  let! mp := to_int q in
  Return (mk_Halo pos pos_cm vel l vel_disp r m (Int mp) m).

(** How the loop over the lines ends: the lines are exhausted or it meets
    [break], or a statement raises. *)
Inductive loop_end : Set :=
| Finished
| Raised (e : exception).

(** The loop [for linenumber, line in enumerate(fileinput.input(...))]
    from line [linenumber] on.  [cols] is [None] until the header line has
    bound the column locals, [bound] says whether the local [halo] is
    bound.  A data line has an index above 15, so that the header line and
    line 5 were read before it: the branch for unbound column locals or an
    unset [self.part_mass] is there for the function to be total, and no
    run from line 0 reaches it. *)
Fixpoint rockstar_loop (max_select_number : Z) (lines : list string)
    (linenumber : nat) (self : HaloRockstar) (cols : option columns)
    (bound : bool) : HaloRockstar * bool * loop_end :=
  match lines with
  | [] => (self, bound, Finished)
  | line :: rest =>
      let continue self cols bound :=
        rockstar_loop max_select_number rest (S linenumber) self cols bound in
      if (linenumber =? 0)%nat then
        match header_columns (rs_mass_def self) line with
        | Return c => continue self (Some c) bound
        | Raises e => (self, bound, Raised e)
        end
      else if (linenumber =? 1)%nat then
        match
          (let! t := item_from_end (split line) 1 in
           let! a := to_float float t in
           let! q := divide fone a in
           Return (fsub q fone))
        with
        | Return z =>
            continue (mk_HaloRockstar (rs_halos self) (rs_mass_def self)
                        (rs_filename self) (Some z) (rs_cosmology self)
                        (rs_part_mass self)) cols bound
        | Raises e => (self, bound, Raised e)
        end
      else if (linenumber =? 2)%nat then
        let cosm := split line in
        match
          (let! t2 := item cosm 2 in
           let! Om := to_float float (but_last t2) in
           let! t5 := item cosm 5 in
           let! Ol := to_float float (but_last t5) in
           let! tl := item_from_end cosm 1 in
           let! h := to_float float tl in
           Return (Om, Ol, h))
        with
        | Return c =>
            continue (mk_HaloRockstar (rs_halos self) (rs_mass_def self)
                        (rs_filename self) (rs_z self) (Some c)
                        (rs_part_mass self)) cols bound
        | Raises e => (self, bound, Raised e)
        end
      else if (linenumber =? 5)%nat then
        match
          (let! t := item (split line) 2 in to_float float t)
        with
        | Return pm =>
            continue (mk_HaloRockstar (rs_halos self) (rs_mass_def self)
                        (rs_filename self) (rs_z self) (rs_cosmology self)
                        (Some pm)) cols bound
        | Raises e => (self, bound, Raised e)
        end
      else if (15 <? linenumber)%nat then
        let vals := split line in
        if max_select_number <? Z.of_nat (length (rs_halos self)) then
          match cols, rs_part_mass self with
          | Some c, Some pm =>
              match rockstar_halo c pm vals with
              | Return halo =>
                  continue (mk_HaloRockstar (rs_halos self ++ [halo])
                              (rs_mass_def self) (rs_filename self)
                              (rs_z self) (rs_cosmology self)
                              (rs_part_mass self)) cols true
              | Raises e => (self, true, Raised e)
              end
          | _, _ => (self, true, Raised NameError)
          end
        else (self, bound, Finished)
      else continue self cols bound
  end.

(** [HaloRockstar.read_from_file]; its two imports are taken to succeed.
    After the loop comes [self.nhalo = len(halo)], on a [Halo], which has
    no length ([TypeError]), or on a local that was never bound
    ([UnboundLocalError], a [NameError]). *)
Definition HaloRockstar_read_from_file (self : HaloRockstar)
    (filename : string) (max_select_number : Z)
  : HaloRockstar * ret bool :=
  let self := mk_HaloRockstar (rs_halos self) (rs_mass_def self)
                (Some filename) (rs_z self) (rs_cosmology self)
                (rs_part_mass self) in
  match fileinput filename with
  | None => (self, Raises IOError)
  | Some lines =>
      let '(self', bound, ending) :=
        rockstar_loop max_select_number lines 0 self None false in
      match ending with
      | Raised e => (self', Raises e)
      | Finished =>
          if bound then (self', Raises TypeError)
          else (self', Raises NameError)
      end
  end.

(** [HaloRockstar(filename, mass_def, max_select_number)]. *)
Definition HaloRockstar_init (filename : option string) (mass_def : string)
    (max_select_number : Z) : HaloRockstar * ret unit :=
  let self := mk_HaloRockstar [] mass_def None None None None in
  match filename with
  | None => (self, Return tt)
  | Some name =>
      if String.eqb name "" then (self, Return tt)
      else
        let '(self', outcome) :=
          HaloRockstar_read_from_file self name max_select_number in
        (self', let! _ := outcome in Return tt)
  end.
End Readers.
End Halos.

(** ** An instance to run the readers on

    Numbers written as unsigned decimal integers, tokens separated by
    single spaces, and a file system with two catalogues. *)
Module HalosSample.
Import Halos.

Fixpoint digits (s : string) (acc : Z) : option Z :=
  match s with
  | EmptyString => Some acc
  | String c s' =>
      let n := Z.of_nat (Ascii.nat_of_ascii c) - 48 in
      if (0 <=? n) && (n <=? 9) then digits s' (10 * acc + n) else None
  end.

Definition decimal (s : string) : option Z :=
  match s with
  | EmptyString => None
  | _ => digits s 0
  end.

Fixpoint words (s : string) (cur : string) : list string :=
  match s with
  | EmptyString => if String.eqb cur "" then [] else [cur]
  | String c s' =>
      if Ascii.eqb c (Ascii.ascii_of_nat 32)
      then (if String.eqb cur "" then words s' "" else cur :: words s' "")
      else words s' (String.append cur (String c ""))
  end.

Fixpoint remove_last (s : string) : string :=
  match s with
  | EmptyString => EmptyString
  | String c EmptyString => EmptyString
  | String c s' => String c (remove_last s')
  end.

#[local] Instance int_float : PyFloat Z := {|
  float := decimal;
  astype_float := decimal;
  fmul := Z.mul;
  fdiv := fun a b => if b =? 0 then None else Some (a / b);
  fsub := Z.sub;
  flt := Z.ltb;
  ftruthy := fun a => negb (a =? 0);
  fone := 1;
  int_round := IntOf
|}.

#[local] Instance space_str : PyStr := {|
  split := fun s => words s "";
  but_last := remove_last
|}.

(** A catalogue in the format of [HaloList], with a blank last line in
    the second file. *)
Definition halo_line (mass : string) : string :=
  String.append "1 2 3 4 5 6 7 8 9 10 11 12 13 14 "
    (String.append mass " 16 17").

Definition list_files (name : string) : option (list string) :=
  if String.eqb name "7halo.dat"
  then Some [halo_line "50"; halo_line "5"; halo_line "80"; halo_line "90"]
  else if String.eqb name "8halo.dat"
  then Some [halo_line "50"; ""%string]
  else None.

Definition list_redshift (name : string) : string :=
  String.substring 0 1 name.

(** A catalogue in the format of Rockstar: a header of 16 lines and two
    data lines. *)
Definition rockstar_lines : list string :=
  [ "ID X Y Z VX VY VZ JX JY JZ Vrms Rvir Mvir"%string;
    "a = 1"%string;
    "Om = 3; Ol = 7; h = 1"%string;
    "skipped"%string; "skipped"%string;
    "Particle mass: 10 Msun/h"%string;
    "skipped"%string; "skipped"%string; "skipped"%string; "skipped"%string; "skipped"%string;
    "skipped"%string; "skipped"%string; "skipped"%string; "skipped"%string; "skipped"%string;
    "0 1 2 3 4 5 6 7 8 9 10 11 120"%string;
    "1 1 2 3 4 5 6 7 8 9 10 11 240"%string ].

Definition rockstar_files (name : string) : option (list string) :=
  if String.eqb name "halos.list" then Some rockstar_lines else None.
End HalosSample.

(** * Properties *)

(** ** Reasoning about the loops *)

Lemma elem_of_xrange (n i : Z) : i ∈ xrange n <-> 0 <= i < n.
Proof. unfold xrange. rewrite elem_of_seqZ. lia. Qed.

Section Loops.
Context {S : Type}.
(** [grows s s'] : the state [s'] was reached from [s]; the facts a loop
    collects about the items it has visited are stable under it. *)
Variable grows : S -> S -> Prop.
Hypothesis grows_refl : forall s, grows s s.
Hypothesis grows_trans : forall s1 s2 s3,
  grows s1 s2 -> grows s2 s3 -> grows s1 s3.
Variable Inv : S -> Prop.

(** A loop whose body keeps [Inv], only grows the state and establishes
    the stable fact [Q i] at item [i] runs to its end without raising,
    and every visited item then has its fact. *)
Lemma for_each_spec (Q : Z -> S -> Prop) (l : list Z)
    (body : Z -> S -> result S) :
  (forall i s s', Q i s -> grows s s' -> Q i s') ->
  (forall i s, i ∈ l -> Inv s ->
     exists s', body i s = Ok s' /\ Inv s' /\ grows s s' /\ Q i s') ->
  forall s, Inv s ->
    exists s', for_each l body s = Ok s' /\ Inv s' /\ grows s s' /\
               forall i, i ∈ l -> Q i s'.
Proof.
  intros Hstable. induction l as [|i l IH]; intros Hbody s Hs.
  - exists s. repeat split; auto. intros i Hi. inversion Hi.
  - destruct (Hbody i s) as (s1 & E1 & I1 & G1 & Q1); [left | assumption |].
    destruct IH with (s := s1) as (s2 & E2 & I2 & G2 & Q2); [|assumption|].
    { intros j s' Hj. apply Hbody. now right. }
    exists s2. simpl. rewrite E1. simpl. repeat split; eauto.
    intros j Hj. apply elem_of_cons in Hj as [->|Hj]; eauto.
Qed.

Lemma for_range3_spec (Q : Z -> Z -> Z -> S -> Prop) (n0 n1 n2 : Z)
    (body : Z -> Z -> Z -> S -> result S) :
  (forall i j k s s', Q i j k s -> grows s s' -> Q i j k s') ->
  (forall i j k s, 0 <= i < n0 -> 0 <= j < n1 -> 0 <= k < n2 -> Inv s ->
     exists s', body i j k s = Ok s' /\ Inv s' /\ grows s s' /\ Q i j k s') ->
  forall s, Inv s ->
    exists s', for_range3 n0 n1 n2 body s = Ok s' /\ Inv s' /\ grows s s' /\
               forall i j k, 0 <= i < n0 -> 0 <= j < n1 -> 0 <= k < n2 ->
                             Q i j k s'.
Proof.
  intros Hstable Hbody s Hs. unfold for_range3, for_range.
  destruct (for_each_spec
              (fun i s => forall j k, 0 <= j < n1 -> 0 <= k < n2 -> Q i j k s)
              (xrange n0)
              (fun i => for_each (xrange n1)
                          (fun j => for_each (xrange n2) (body i j))))
    with (s := s) as (s' & E & I & G & HQ); [eauto| |assumption|].
  - intros i s0 Hi Hs0. apply elem_of_xrange in Hi.
    destruct (for_each_spec (fun j s => forall k, 0 <= k < n2 -> Q i j k s)
                (xrange n1) (fun j => for_each (xrange n2) (body i j)))
      with (s := s0) as (s1 & E1 & I1 & G1 & Q1); [eauto| |assumption|];
      cycle 1.
    { exists s1. repeat split; auto. intros j k Hj Hk.
      apply Q1; auto. now apply elem_of_xrange. }
    intros j s1 Hj Hs1. apply elem_of_xrange in Hj.
    destruct (for_each_spec (Q i j) (xrange n2) (body i j))
      with (s := s1) as (s2 & E2 & I2 & G2 & Q2); [eauto| |assumption|].
    + intros k s2 Hk Hs2. apply elem_of_xrange in Hk. now apply Hbody.
    + exists s2. repeat split; auto. intros k Hk.
      apply Q2. now apply elem_of_xrange.
  - exists s'. repeat split; auto. intros i j k Hi Hj Hk.
    apply HQ; auto. now apply elem_of_xrange.
Qed.
End Loops.

(** ** Reading and writing the cells of a rank-3 array *)

Lemma well_formed_wf3 (a : ndarray) (n0 n1 n2 : Z) :
  well_formed a -> shape a = [n0; n1; n2] ->
  wf3 a n0 n1 n2 /\ 0 <= n0 /\ 0 <= n1 /\ 0 <= n2.
Proof.
  intros [Hpos Hlen] Hsh. rewrite Hsh in Hpos, Hlen.
  repeat (apply Forall_cons in Hpos as [? Hpos]).
  unfold wf3. rewrite Hlen. unfold size_of. simpl.
  replace (n0 * (n1 * (n2 * 1))) with (n0 * n1 * n2) by ring.
  repeat split; auto.
Qed.

Lemma norm_index_in (n i : Z) : 0 <= i < n -> norm_index n i = Ok i.
Proof.
  intros H. unfold norm_index.
  destruct (Z.leb_spec 0 i), (Z.ltb_spec i n); simpl; auto; lia.
Qed.

Lemma offset_bound (n0 n1 n2 i j k : Z) :
  in_range n0 n1 n2 i j k -> 0 <= offset n1 n2 i j k < n0 * n1 * n2.
Proof.
  unfold in_range, offset. intros (Hi & Hj & Hk).
  assert (0 <= i * n1 + j <= n0 * n1 - 1) by nia.
  assert (0 <= (i * n1 + j) * n2) by nia.
  assert ((i * n1 + j) * n2 <= (n0 * n1 - 1) * n2) by nia.
  lia.
Qed.

Lemma offset_inj (n1 n2 i j k i' j' k' : Z) :
  0 <= j < n1 -> 0 <= k < n2 -> 0 <= j' < n1 -> 0 <= k' < n2 ->
  offset n1 n2 i j k = offset n1 n2 i' j' k' ->
  i = i' /\ j = j' /\ k = k'.
Proof.
  unfold offset. intros Hj Hk Hj' Hk' E.
  assert (Ha : i * n1 + j = i' * n1 + j') by nia.
  assert (Hi : i = i') by nia.
  subst i'. lia.
Qed.

Lemma getitem_ok (c : ndarray) (n0 n1 n2 i j k : Z) :
  wf3 c n0 n1 n2 -> in_range n0 n1 n2 i j k ->
  getitem c i j k = Ok (cell c i j k).
Proof.
  intros [Hsh Hlen] Hr. pose proof (offset_bound _ _ _ _ _ _ Hr) as Hb.
  destruct Hr as (Hi & Hj & Hk). unfold cell, getitem. rewrite Hsh.
  rewrite !norm_index_in by assumption. simpl.
  destruct (data c !! Z.to_nat (offset n1 n2 i j k)) eqn:E; [reflexivity|].
  apply lookup_ge_None in E. lia.
Qed.

(** A store in range succeeds; it changes the stored cell and no other. *)
Lemma setitem_ok (c : ndarray) (n0 n1 n2 i j k : Z) (v : Q) :
  wf3 c n0 n1 n2 -> in_range n0 n1 n2 i j k ->
  exists c', setitem c i j k v = Ok c' /\ wf3 c' n0 n1 n2 /\
    cell c' i j k = v /\
    forall i' j' k', in_range n0 n1 n2 i' j' k' ->
      (i', j', k') <> (i, j, k) -> cell c' i' j' k' = cell c i' j' k'.
Proof.
  intros [Hsh Hlen] Hr. pose proof (offset_bound _ _ _ _ _ _ Hr) as Hb.
  destruct Hr as (Hi & Hj & Hk). unfold setitem. rewrite Hsh.
  rewrite !norm_index_in by assumption. simpl.
  destruct (data c !! Z.to_nat (offset n1 n2 i j k)) eqn:E;
    [|apply lookup_ge_None in E; lia].
  eexists. split; [reflexivity|].
  assert (Hwf : wf3 (mk_ndarray [n0; n1; n2]
                       (<[Z.to_nat (offset n1 n2 i j k) := v]> (data c)))
                    n0 n1 n2).
  { split; simpl; [reflexivity|]. now rewrite length_insert. }
  split; [assumption|]. split.
  - unfold cell, getitem. simpl. rewrite !norm_index_in by assumption. simpl.
    rewrite list_lookup_insert_eq by lia. reflexivity.
  - intros i' j' k' Hr' Hne.
    pose proof (offset_bound _ _ _ _ _ _ Hr') as Hb'.
    destruct Hr' as (Hi' & Hj' & Hk').
    unfold cell, getitem. simpl. rewrite Hsh.
    rewrite !norm_index_in by assumption. simpl.
    rewrite list_lookup_insert_ne; [reflexivity|].
    intros Heq. apply Hne. apply Z2Nat.inj in Heq; try lia.
    apply offset_inj in Heq as (-> & -> & ->); auto.
Qed.

(** ** The geometry of the doubled lattice *)

Lemma all_corners_spec (arr : ndarray) (x y z : Z) :
  all_corners arr x y z = true <-> corners_occupied arr x y z.
Proof.
  unfold all_corners, corners_occupied. rewrite forallb_forall. split.
  - intros H i j k Hi Hj Hk. specialize (H i Hi).
    rewrite forallb_forall in H. specialize (H j Hj).
    rewrite forallb_forall in H. now apply H.
  - intros H i Hi. apply forallb_forall. intros j Hj.
    apply forallb_forall. intros k Hk. now apply H.
Qed.

Lemma in_ends (x i : Z) : In i (ends x) <-> i = x / 2 \/ i = (x + 1) / 2.
Proof. unfold ends. simpl. intuition. Qed.

(** *** One axis of the lattice, of odd extent [N = 2 * n - 1] *)
Section Axis.
Variables n N : Z.
Hypothesis N_def : N = 2 * n - 1.

(** Next to an odd coordinate nothing wraps. *)
Lemma odd_neighbours (x : Z) :
  0 <= x < N -> x mod 2 = 1 ->
  (x - 1) mod N = x - 1 /\ (x + 1) mod N = x + 1.
Proof.
  intros Hx Hodd.
  assert (x + 1 < N) by (Z.div_mod_to_equations; lia).
  split; apply Z.mod_small; Z.div_mod_to_equations; lia.
Qed.

(** The ends of the neighbours of an odd coordinate are ends of it. *)
Lemma ends_of_odd (x i : Z) :
  x mod 2 = 1 -> In i (ends (x - 1)) \/ In i (ends (x + 1)) ->
  In i (ends x).
Proof.
  rewrite !in_ends. intros Hodd H.
  replace (x - 1 + 1) with x in H by lia.
  Z.div_mod_to_equations. lia.
Qed.

(** Unless the axis has one cell, whose two neighbours are that cell
    itself, each end of [x] is an end of one of its (wrapped)
    neighbours. *)
Lemma ends_covered (x i : Z) :
  0 <= x < N -> (x - 1) mod N <> x -> In i (ends x) ->
  In i (ends ((x - 1) mod N)) \/ In i (ends ((x + 1) mod N)).
Proof.
  intros Hx Hne. rewrite !in_ends. intros Hi.
  assert (HN : 3 <= N).
  { destruct (Z.eq_dec N 1) as [E|E]; [|lia].
    exfalso. apply Hne. rewrite E, Z.mod_1_r. lia. }
  destruct (Z.eq_dec (x mod 2) 1) as [Hodd|Heven].
  - destruct (odd_neighbours x Hx Hodd) as [-> ->].
    replace (x - 1 + 1) with x by lia.
    Z.div_mod_to_equations. lia.
  - destruct (Z.eq_dec x 0) as [->|Hx0].
    + right. rewrite (Z.mod_small (0 + 1)) by lia.
      simpl in *. Z.div_mod_to_equations. lia.
    + left. rewrite (Z.mod_small (x - 1)) by lia.
      replace (x - 1 + 1) with x by lia.
      Z.div_mod_to_equations. lia.
Qed.
End Axis.

(** ** The bodies of the passes as guarded stores *)

Section Bodies.
Variables Nx Ny Nz : Z.
Hypothesis Nx_pos : 0 < Nx.
Hypothesis Ny_pos : 0 < Ny.
Hypothesis Nz_pos : 0 < Nz.

Lemma wrapped_in_range (i j k i' j' k' : Z) :
  in_range Nx Ny Nz i j k ->
  (i' = i \/ i' = (i - 1) mod Nx \/ i' = (i + 1) mod Nx) ->
  (j' = j \/ j' = (j - 1) mod Ny \/ j' = (j + 1) mod Ny) ->
  (k' = k \/ k' = (k - 1) mod Nz \/ k' = (k + 1) mod Nz) ->
  in_range Nx Ny Nz i' j' k'.
Proof.
  intros (Hi & Hj & Hk) Hi' Hj' Hk'.
  pose proof (Z.mod_pos_bound (i - 1) Nx Nx_pos).
  pose proof (Z.mod_pos_bound (i + 1) Nx Nx_pos).
  pose proof (Z.mod_pos_bound (j - 1) Ny Ny_pos).
  pose proof (Z.mod_pos_bound (j + 1) Ny Ny_pos).
  pose proof (Z.mod_pos_bound (k - 1) Nz Nz_pos).
  pose proof (Z.mod_pos_bound (k + 1) Nz Nz_pos).
  unfold in_range. intuition (subst; assumption).
Qed.

Ltac read_cells old Hwf Hr :=
  repeat match goal with
  | |- context [getitem old ?a ?b ?c] =>
      rewrite (getitem_ok old Nx Ny Nz a b c Hwf)
        by (apply (wrapped_in_range _ _ _ a b c Hr); auto)
  end.

Ltac by_cases :=
  unfold truth, equals, and_then, bind;
  repeat match goal with
  | |- context [truthy ?v] => destruct (truthy v)
  | |- context [Qeq_bool ?v ?q] => destruct (Qeq_bool v q)
  end; reflexivity.

Lemma edges_body_guarded (old c : ndarray) (i j k : Z) :
  wf3 old Nx Ny Nz -> in_range Nx Ny Nz i j k ->
  edges_body_snapshot Nx Ny Nz old i j k c =
  if Qeq_bool (cell old i j k) 0 && edges_rule Nx Ny Nz old i j k
  then setitem c i j k 1%Q else Ok c.
Proof.
  intros Hwf Hr. unfold edges_body_snapshot, edges_rule, pair_x, pair_y, pair_z.
  read_cells old Hwf Hr. by_cases.
Qed.

Lemma faces_body_guarded (old c : ndarray) (i j k : Z) :
  wf3 old Nx Ny Nz -> in_range Nx Ny Nz i j k ->
  faces_body_snapshot Nx Ny Nz old i j k c =
  if Qeq_bool (cell old i j k) 0 && faces_rule Nx Ny Nz old i j k
  then setitem c i j k 1%Q else Ok c.
Proof.
  intros Hwf Hr. unfold faces_body_snapshot, faces_rule, pair_x, pair_y, pair_z.
  read_cells old Hwf Hr. by_cases.
Qed.

Lemma cubes_body_guarded (old c : ndarray) (i j k : Z) :
  wf3 old Nx Ny Nz -> in_range Nx Ny Nz i j k ->
  cubes_body_snapshot Nx Ny Nz old i j k c =
  if Qeq_bool (cell old i j k) 0 && cubes_rule Nx Ny Nz old i j k
  then setitem c i j k 1%Q else Ok c.
Proof.
  intros Hwf Hr. unfold cubes_body_snapshot, cubes_rule, pair_x, pair_y, pair_z.
  read_cells old Hwf Hr. by_cases.
Qed.
End Bodies.

(** ** The passes build the complex, dimension by dimension *)

Lemma grows_refl (Nx Ny Nz : Z) (c : ndarray) : grows Nx Ny Nz c c.
Proof. intros x y z _ H. exact H. Qed.

Lemma grows_trans (Nx Ny Nz : Z) (c1 c2 c3 : ndarray) :
  grows Nx Ny Nz c1 c2 -> grows Nx Ny Nz c2 c3 -> grows Nx Ny Nz c1 c3.
Proof. intros H12 H23 x y z Hr H. apply H23, H12; assumption. Qed.

Section Complex.
Variable arr : ndarray.
Variables nx ny nz : Z.
Hypothesis nx_pos : 1 <= nx.
Hypothesis ny_pos : 1 <= ny.
Hypothesis nz_pos : 1 <= nz.

Local Abbreviation Nx := (2 * nx - 1).
Local Abbreviation Ny := (2 * ny - 1).
Local Abbreviation Nz := (2 * nz - 1).
Local Abbreviation P := (corners_occupied arr).
Local Abbreviation sound := (Sound P Nx Ny Nz).
Local Abbreviation complete := (Done P Nx Ny Nz).
Local Abbreviation extends := (grows Nx Ny Nz).
Local Abbreviation inside := (in_range Nx Ny Nz).

Lemma truthy_one (old : ndarray) (x y z : Z) :
  sound old -> inside x y z -> truthy (cell old x y z) = true ->
  cell old x y z = 1%Q /\ P x y z.
Proof.
  intros [_ Hs] Hr Ht. destruct (Hs x y z Hr) as [E|E]; [|exact E].
  rewrite E in Ht. discriminate.
Qed.

(** A fired test along an axis puts the cell in the complex. *)
Lemma pair_x_sound (old : ndarray) (i j k : Z) :
  sound old -> inside i j k -> cell old i j k = 0%Q ->
  pair_x Nx old i j k = true -> P i j k.
Proof.
  intros Hs Hr E0 Hp. apply andb_true_iff in Hp as [Hm Hp].
  assert (Hrm : inside ((i - 1) mod Nx) j k)
    by (apply (wrapped_in_range Nx Ny Nz ltac:(lia) ltac:(lia) ltac:(lia)
                 i j k); auto).
  assert (Hrp : inside ((i + 1) mod Nx) j k)
    by (apply (wrapped_in_range Nx Ny Nz ltac:(lia) ltac:(lia) ltac:(lia)
                 i j k); auto).
  assert (Hne : (i - 1) mod Nx <> i).
  { intros E. rewrite E, E0 in Hm. discriminate. }
  apply truthy_one in Hm as [_ Hm]; [|assumption..].
  apply truthy_one in Hp as [_ Hp]; [|assumption..].
  intros a b c Ha Hb Hc.
  destruct (ends_covered nx Nx eq_refl i a) as [H|H];
    [apply Hr | assumption | assumption | now apply Hm | now apply Hp].
Qed.

Lemma pair_y_sound (old : ndarray) (i j k : Z) :
  sound old -> inside i j k -> cell old i j k = 0%Q ->
  pair_y Ny old i j k = true -> P i j k.
Proof.
  intros Hs Hr E0 Hp. apply andb_true_iff in Hp as [Hm Hp].
  assert (Hrm : inside i ((j - 1) mod Ny) k)
    by (apply (wrapped_in_range Nx Ny Nz ltac:(lia) ltac:(lia) ltac:(lia)
                 i j k); auto).
  assert (Hrp : inside i ((j + 1) mod Ny) k)
    by (apply (wrapped_in_range Nx Ny Nz ltac:(lia) ltac:(lia) ltac:(lia)
                 i j k); auto).
  assert (Hne : (j - 1) mod Ny <> j).
  { intros E. rewrite E, E0 in Hm. discriminate. }
  apply truthy_one in Hm as [_ Hm]; [|assumption..].
  apply truthy_one in Hp as [_ Hp]; [|assumption..].
  intros a b c Ha Hb Hc.
  destruct (ends_covered ny Ny eq_refl j b) as [H|H];
    [apply Hr | assumption | assumption | now apply Hm | now apply Hp].
Qed.

Lemma pair_z_sound (old : ndarray) (i j k : Z) :
  sound old -> inside i j k -> cell old i j k = 0%Q ->
  pair_z Nz old i j k = true -> P i j k.
Proof.
  intros Hs Hr E0 Hp. apply andb_true_iff in Hp as [Hm Hp].
  assert (Hrm : inside i j ((k - 1) mod Nz))
    by (apply (wrapped_in_range Nx Ny Nz ltac:(lia) ltac:(lia) ltac:(lia)
                 i j k); auto).
  assert (Hrp : inside i j ((k + 1) mod Nz))
    by (apply (wrapped_in_range Nx Ny Nz ltac:(lia) ltac:(lia) ltac:(lia)
                 i j k); auto).
  assert (Hne : (k - 1) mod Nz <> k).
  { intros E. rewrite E, E0 in Hm. discriminate. }
  apply truthy_one in Hm as [_ Hm]; [|assumption..].
  apply truthy_one in Hp as [_ Hp]; [|assumption..].
  intros a b c Ha Hb Hc.
  destruct (ends_covered nz Nz eq_refl k c) as [H|H];
    [apply Hr | assumption | assumption | now apply Hm | now apply Hp].
Qed.

Lemma mod2_cases (x : Z) : x mod 2 = 0 \/ x mod 2 = 1.
Proof. pose proof (Z.mod_pos_bound x 2). lia. Qed.

Lemma mod2_pred (x : Z) : x mod 2 = 1 -> (x - 1) mod 2 = 0.
Proof. intros H. Z.div_mod_to_equations. lia. Qed.

Lemma mod2_succ (x : Z) : x mod 2 = 1 -> (x + 1) mod 2 = 0.
Proof. intros H. Z.div_mod_to_equations. lia. Qed.

(** Once the complex is complete up to dimension [d], a cell of the
    complex of dimension at most [d + 1] has its two neighbours along
    each of its odd axes at 1. *)
Lemma ones_x (d : Z) (old : ndarray) (i j k : Z) :
  complete d old -> inside i j k -> P i j k ->
  i mod 2 = 1 -> dim i j k <= d + 1 ->
  cell old ((i - 1) mod Nx) j k = 1%Q /\ cell old ((i + 1) mod Nx) j k = 1%Q.
Proof.
  intros Hd (Hi & Hj & Hk) HP Hodd Hdim.
  destruct (odd_neighbours nx Nx eq_refl i Hi Hodd) as [Em Ep].
  rewrite Em, Ep. unfold dim in Hdim.
  assert (1 <= i /\ i + 1 < Nx) as [? ?]
    by (clear - Hi Hodd; Z.div_mod_to_equations; lia).
  split; apply Hd.
  - unfold in_range. lia.
  - intros a b c Ha Hb Hc. apply HP; auto.
    apply (ends_of_odd i a Hodd). now left.
  - unfold dim. rewrite mod2_pred by assumption. lia.
  - unfold in_range. lia.
  - intros a b c Ha Hb Hc. apply HP; auto.
    apply (ends_of_odd i a Hodd). now right.
  - unfold dim. rewrite mod2_succ by assumption. lia.
Qed.

Lemma ones_y (d : Z) (old : ndarray) (i j k : Z) :
  complete d old -> inside i j k -> P i j k ->
  j mod 2 = 1 -> dim i j k <= d + 1 ->
  cell old i ((j - 1) mod Ny) k = 1%Q /\ cell old i ((j + 1) mod Ny) k = 1%Q.
Proof.
  intros Hd (Hi & Hj & Hk) HP Hodd Hdim.
  destruct (odd_neighbours ny Ny eq_refl j Hj Hodd) as [Em Ep].
  rewrite Em, Ep. unfold dim in Hdim.
  assert (1 <= j /\ j + 1 < Ny) as [? ?]
    by (clear - Hj Hodd; Z.div_mod_to_equations; lia).
  split; apply Hd.
  - unfold in_range. lia.
  - intros a b c Ha Hb Hc. apply HP; auto.
    apply (ends_of_odd j b Hodd). now left.
  - unfold dim. rewrite mod2_pred by assumption. lia.
  - unfold in_range. lia.
  - intros a b c Ha Hb Hc. apply HP; auto.
    apply (ends_of_odd j b Hodd). now right.
  - unfold dim. rewrite mod2_succ by assumption. lia.
Qed.

Lemma ones_z (d : Z) (old : ndarray) (i j k : Z) :
  complete d old -> inside i j k -> P i j k ->
  k mod 2 = 1 -> dim i j k <= d + 1 ->
  cell old i j ((k - 1) mod Nz) = 1%Q /\ cell old i j ((k + 1) mod Nz) = 1%Q.
Proof.
  intros Hd (Hi & Hj & Hk) HP Hodd Hdim.
  destruct (odd_neighbours nz Nz eq_refl k Hk Hodd) as [Em Ep].
  rewrite Em, Ep. unfold dim in Hdim.
  assert (1 <= k /\ k + 1 < Nz) as [? ?]
    by (clear - Hk Hodd; Z.div_mod_to_equations; lia).
  split; apply Hd.
  - unfold in_range. lia.
  - intros a b c Ha Hb Hc. apply HP; auto.
    apply (ends_of_odd k c Hodd). now left.
  - unfold dim. rewrite mod2_pred by assumption. lia.
  - unfold in_range. lia.
  - intros a b c Ha Hb Hc. apply HP; auto.
    apply (ends_of_odd k c Hodd). now right.
  - unfold dim. rewrite mod2_succ by assumption. lia.
Qed.

Lemma edges_rule_sound (old : ndarray) (i j k : Z) :
  sound old -> inside i j k -> cell old i j k = 0%Q ->
  edges_rule Nx Ny Nz old i j k = true -> P i j k.
Proof.
  intros Hs Hr E0 H. unfold edges_rule in H.
  apply orb_true_iff in H as [H|H]; [apply orb_true_iff in H as [H|H]|].
  - now apply (pair_x_sound old).
  - now apply (pair_y_sound old).
  - now apply (pair_z_sound old).
Qed.

Lemma faces_rule_sound (old : ndarray) (i j k : Z) :
  sound old -> inside i j k -> cell old i j k = 0%Q ->
  faces_rule Nx Ny Nz old i j k = true -> P i j k.
Proof.
  intros Hs Hr E0 H. unfold faces_rule in H.
  apply orb_true_iff in H as [H|H]; [apply orb_true_iff in H as [H|H]|].
  - apply (pair_x_sound old); auto. unfold pair_x.
    repeat (apply andb_true_iff in H as [H ?]). now apply andb_true_iff.
  - apply andb_true_iff in H as [H _]. now apply (pair_y_sound old).
  - apply andb_true_iff in H as [H _]. now apply (pair_z_sound old).
Qed.

Lemma cubes_rule_sound (old : ndarray) (i j k : Z) :
  sound old -> inside i j k -> cell old i j k = 0%Q ->
  cubes_rule Nx Ny Nz old i j k = true -> P i j k.
Proof.
  intros Hs Hr E0 H. unfold cubes_rule in H.
  apply andb_true_iff in H as [_ H]. now apply (pair_z_sound old).
Qed.

(** With the lower dimensions complete, the rule of a pass fires at every
    cell of the complex of the dimension of the pass. *)
Lemma edges_rule_complete (old : ndarray) (i j k : Z) :
  complete 0 old -> inside i j k -> P i j k -> dim i j k = 1 ->
  edges_rule Nx Ny Nz old i j k = true.
Proof.
  intros Hd Hr HP Hdim. unfold edges_rule, pair_x, pair_y, pair_z.
  pose proof (ones_x 0 old i j k Hd Hr HP) as Hx.
  pose proof (ones_y 0 old i j k Hd Hr HP) as Hy.
  pose proof (ones_z 0 old i j k Hd Hr HP) as Hz.
  unfold dim in Hdim, Hx, Hy, Hz.
  destruct (mod2_cases i) as [Ei|Ei], (mod2_cases j) as [Ej|Ej],
    (mod2_cases k) as [Ek|Ek]; try lia.
  - destruct Hz as [-> ->]; [lia..|]. now rewrite !orb_true_r.
  - destruct Hy as [-> ->]; [lia..|]. now rewrite !orb_true_r.
  - destruct Hx as [-> ->]; [lia..|]. reflexivity.
Qed.

Lemma faces_rule_complete (old : ndarray) (i j k : Z) :
  complete 1 old -> inside i j k -> P i j k -> dim i j k = 2 ->
  faces_rule Nx Ny Nz old i j k = true.
Proof.
  intros Hd Hr HP Hdim. unfold faces_rule, pair_x, pair_y, pair_z.
  pose proof (ones_x 1 old i j k Hd Hr HP) as Hx.
  pose proof (ones_y 1 old i j k Hd Hr HP) as Hy.
  pose proof (ones_z 1 old i j k Hd Hr HP) as Hz.
  unfold dim in Hdim, Hx, Hy, Hz.
  destruct (mod2_cases i) as [Ei|Ei], (mod2_cases j) as [Ej|Ej],
    (mod2_cases k) as [Ek|Ek]; try lia.
  - destruct Hy as [-> ->]; [lia..|]. destruct Hz as [-> ->]; [lia..|].
    simpl. now rewrite !orb_true_r.
  - destruct Hx as [-> ->]; [lia..|]. destruct Hz as [-> ->]; [lia..|].
    simpl. now rewrite !orb_true_r.
  - destruct Hx as [-> ->]; [lia..|]. destruct Hy as [-> ->]; [lia..|].
    reflexivity.
Qed.

Lemma cubes_rule_complete (old : ndarray) (i j k : Z) :
  complete 2 old -> inside i j k -> P i j k -> dim i j k = 3 ->
  cubes_rule Nx Ny Nz old i j k = true.
Proof.
  intros Hd Hr HP Hdim. unfold cubes_rule, pair_x, pair_y, pair_z.
  pose proof (ones_x 2 old i j k Hd Hr HP) as Hx.
  pose proof (ones_y 2 old i j k Hd Hr HP) as Hy.
  pose proof (ones_z 2 old i j k Hd Hr HP) as Hz.
  unfold dim in Hdim, Hx, Hy, Hz.
  destruct (mod2_cases i) as [Ei|Ei], (mod2_cases j) as [Ej|Ej],
    (mod2_cases k) as [Ek|Ek]; try lia.
  destruct Hx as [-> ->]; [lia..|]. destruct Hy as [-> ->]; [lia..|].
  destruct Hz as [-> ->]; [lia..|]. reflexivity.
Qed.

(** Storing 1 at a cell of the complex keeps the array sound. *)
Lemma store_one (c : ndarray) (i j k : Z) :
  sound c -> inside i j k -> P i j k ->
  exists c', setitem c i j k 1%Q = Ok c' /\ sound c' /\ extends c c' /\
             cell c' i j k = 1%Q.
Proof.
  intros [Hwf Hs] Hr HP.
  destruct (setitem_ok c Nx Ny Nz i j k 1%Q Hwf Hr)
    as (c' & E & Hwf' & Hset & Hother).
  exists c'. split; [exact E|]. split; [split; [exact Hwf'|]|split; [|exact Hset]].
  - intros x y z Hxyz.
    destruct (decide ((x, y, z) = (i, j, k))) as [[= -> -> ->]|Hne].
    + right. auto.
    + rewrite Hother by assumption. auto.
  - intros x y z Hxyz H1.
    destruct (decide ((x, y, z) = (i, j, k))) as [[= -> -> ->]|Hne].
    + assumption.
    + now rewrite Hother.
Qed.

(** One visit of a cell in a pass of dimension [d], whose tests read [old]
    and whose store goes to [c]. *)
Lemma guarded_store (d : Z) (rule : bool) (old c : ndarray) (i j k : Z) :
  sound old -> complete (d - 1) old -> sound c -> extends old c ->
  inside i j k ->
  (cell old i j k = 0%Q -> rule = true -> P i j k) ->
  (P i j k -> dim i j k = d -> rule = true) ->
  exists c',
    (if Qeq_bool (cell old i j k) 0 && rule
     then setitem c i j k 1%Q else Ok c) = Ok c' /\
    sound c' /\ extends c c' /\
    (P i j k -> dim i j k <= d -> cell c' i j k = 1%Q).
Proof.
  intros Hso Hdo Hsc Hext Hr Hsound Hcomplete.
  destruct (proj2 Hso i j k Hr) as [E0|[E1 HP]].
  - rewrite E0. simpl. destruct rule.
    + destruct (store_one c i j k) as (c' & E & Hs' & Hg & H1); auto.
      exists c'. auto.
    + exists c. repeat split; try apply Hsc. { apply grows_refl. }
      intros HP Hdim. destruct (Z.eq_dec (dim i j k) d) as [Ed|Ed].
      * specialize (Hcomplete HP Ed). discriminate.
      * rewrite (Hdo i j k Hr HP) in E0 by lia. discriminate.
  - rewrite E1. simpl. exists c. repeat split; try apply Hsc.
    { apply grows_refl. } intros _ _. now apply Hext.
Qed.

(** A whole pass of dimension [d]: run in place, as the source does, or
    against the snapshot taken when it begins, it ends without raising in
    a sound array that is complete up to dimension [d]. *)
Lemma pass_spec (d : Z) (rule : ndarray -> Z -> Z -> Z -> bool)
    (body : ndarray -> Z -> Z -> Z -> ndarray -> result ndarray) :
  (forall old c i j k, wf3 old Nx Ny Nz -> inside i j k ->
     body old i j k c =
     if Qeq_bool (cell old i j k) 0 && rule old i j k
     then setitem c i j k 1%Q else Ok c) ->
  (forall old i j k, sound old -> inside i j k -> cell old i j k = 0%Q ->
     rule old i j k = true -> P i j k) ->
  (forall old i j k, complete (d - 1) old -> inside i j k -> P i j k ->
     dim i j k = d -> rule old i j k = true) ->
  forall c, sound c -> complete (d - 1) c ->
    (exists c', for_range3 Nx Ny Nz (fun i j k s => body s i j k s) c = Ok c' /\
                sound c' /\ complete d c') /\
    (exists c', for_range3 Nx Ny Nz (body c) c = Ok c' /\
                sound c' /\ complete d c').
Proof.
  intros Hbody Hsound Hcomplete c Hs Hd.
  pose (Q := fun i j k s =>
               inside i j k -> P i j k -> dim i j k <= d ->
               cell s i j k = 1%Q).
  assert (Hstable : forall i j k s s', Q i j k s -> extends s s' -> Q i j k s').
  { intros i j k s s' HQ Hg Hr HP Hdim. apply Hg; auto. }
  split.
  - destruct (for_range3_spec extends (grows_refl Nx Ny Nz)
                (grows_trans Nx Ny Nz)
                (fun s => sound s /\ complete (d - 1) s) Q Nx Ny Nz
                (fun i j k s => body s i j k s) Hstable)
      with (s := c) as (c' & E & [Hs' Hd'] & G & HQ); [|auto|].
    + intros i j k s Hi Hj Hk [Hss Hds].
      assert (Hr : inside i j k) by (unfold in_range; auto).
      rewrite Hbody by (apply Hss || assumption).
      destruct (guarded_store d (rule s i j k) s s i j k Hss Hds Hss
                  (grows_refl _ _ _ s) Hr (Hsound s i j k Hss Hr)
                  (Hcomplete s i j k Hds Hr))
        as (s' & E & Hs' & Hg & Hq).
      exists s'. split; [exact E|]. split; [split; [exact Hs'|]|].
      * intros x y z Hxyz HP Hdim. apply Hg; auto.
      * split; [exact Hg|]. intros _. exact Hq.
    + exists c'. split; [exact E|]. split; [exact Hs'|].
      intros x y z Hxyz HP Hdim. apply HQ; auto; apply Hxyz.
  - destruct (for_range3_spec extends (grows_refl Nx Ny Nz)
                (grows_trans Nx Ny Nz)
                (fun s => sound s /\ extends c s) Q Nx Ny Nz
                (body c) Hstable)
      with (s := c) as (c' & E & [Hs' Hd'] & G & HQ);
      [|auto using grows_refl|].
    + intros i j k s Hi Hj Hk [Hss Hcs].
      assert (Hr : inside i j k) by (unfold in_range; auto).
      rewrite Hbody by (apply Hs || assumption).
      destruct (guarded_store d (rule c i j k) c s i j k Hs Hd Hss Hcs Hr
                  (Hsound c i j k Hs Hr) (Hcomplete c i j k Hd Hr))
        as (s' & E & Hs' & Hg & Hq).
      exists s'. split; [exact E|]. split; [split; [exact Hs'|]|].
      * apply (grows_trans _ _ _ c s s'); assumption.
      * split; [exact Hg|]. intros _. exact Hq.
    + exists c'. split; [exact E|]. split; [exact Hs'|].
      intros x y z Hxyz HP Hdim. apply HQ; auto; apply Hxyz.
Qed.

Lemma zeros_sound :
  exists c0, np_zeros [Nx; Ny; Nz] = Ok c0 /\ sound c0.
Proof.
  assert (Hsz : size_of [Nx; Ny; Nz] = Nx * Ny * Nz)
    by (unfold size_of; simpl; ring).
  assert (Hall : forallb (fun n => 0 <=? n) [Nx; Ny; Nz] = true).
  { simpl. rewrite !andb_true_iff, !Z.leb_le. lia. }
  unfold np_zeros. rewrite Hall, Hsz. eexists. split; [reflexivity|]. split.
  - split; simpl; [reflexivity|]. now rewrite length_replicate.
  - intros x y z Hr. left.
    pose proof (offset_bound _ _ _ _ _ _ Hr) as Hb.
    destruct Hr as (Hx & Hy & Hz).
    unfold cell, getitem. simpl. rewrite !norm_index_in by assumption.
    simpl. rewrite lookup_replicate_2 by lia. reflexivity.
Qed.

Lemma ends_even (i a : Z) : In a (ends (i * 2)) -> a = i.
Proof. rewrite in_ends. intros H. Z.div_mod_to_equations. lia. Qed.

(** The vertex pass: the occupied voxels, and only cells of the complex. *)
Lemma vertices_pass (c0 : ndarray) :
  wf3 arr nx ny nz -> sound c0 ->
  exists c, for_range3 nx ny nz (vertices_body arr) c0 = Ok c /\
            sound c /\ complete 0 c.
Proof.
  intros Hwf Hs0.
  pose (Q := fun i j k s =>
               in_range nx ny nz i j k -> occupied arr i j k = true ->
               cell s (i * 2) (j * 2) (k * 2) = 1%Q).
  destruct (for_range3_spec extends (grows_refl Nx Ny Nz)
              (grows_trans Nx Ny Nz) (fun s => sound s) Q nx ny nz
              (vertices_body arr))
    with (s := c0) as (c & E & Hs & G & HQ); [| |assumption|].
  - intros i j k s s' Hq Hg Hr Ho. apply Hg; [|now apply Hq].
    unfold in_range in *. lia.
  - intros i j k s Hi Hj Hk Hs.
    assert (Hr : in_range nx ny nz i j k) by (unfold in_range; auto).
    unfold vertices_body. rewrite (getitem_ok arr nx ny nz) by assumption.
    unfold truth, bind. destruct (truthy (cell arr i j k)) eqn:Ht.
    + destruct (store_one s (i * 2) (j * 2) (k * 2))
        as (s' & E & Hs' & Hg & H1); auto.
      { unfold in_range. lia. }
      { intros a b c Ha Hb Hc. apply ends_even in Ha, Hb, Hc. now subst. }
      exists s'. unfold Q. auto.
    + exists s. repeat split; try apply Hs. { apply grows_refl. }
      intros _ Ho. unfold occupied in Ho. congruence.
  - exists c. split; [exact E|]. split; [exact Hs|].
    intros x y z (Hx & Hy & Hz) HP Hdim. unfold dim in Hdim.
    assert (x mod 2 = 0 /\ y mod 2 = 0 /\ z mod 2 = 0) as (Ex & Ey & Ez)
      by (destruct (mod2_cases x), (mod2_cases y), (mod2_cases z); lia).
    replace x with (x / 2 * 2) at 1 by (Z.div_mod_to_equations; lia).
    replace y with (y / 2 * 2) at 1 by (Z.div_mod_to_equations; lia).
    replace z with (z / 2 * 2) at 1 by (Z.div_mod_to_equations; lia).
    apply HQ; try (Z.div_mod_to_equations; lia).
    + unfold in_range. Z.div_mod_to_equations. lia.
    + apply HP; apply in_ends; now left.
Qed.

Lemma complex_cells (c : ndarray) :
  sound c -> complete 3 c ->
  forall x y z, inside x y z ->
    cell c x y z = if all_corners arr x y z then 1%Q else 0%Q.
Proof.
  intros [_ Hs] Hd x y z Hr. destruct (all_corners arr x y z) eqn:E.
  - apply Hd; auto. { now apply all_corners_spec. }
    unfold dim. destruct (mod2_cases x), (mod2_cases y), (mod2_cases z); lia.
  - destruct (Hs x y z Hr) as [E0|[_ HP]]; [exact E0|].
    apply all_corners_spec in HP. congruence.
Qed.

Lemma Nx_Ny_Nz_pos : 0 < Nx /\ 0 < Ny /\ 0 < Nz.
Proof. lia. Qed.

Lemma edges_pass (c : ndarray) :
  sound c -> complete 0 c ->
  (exists c', for_range3 Nx Ny Nz (edges_body Nx Ny Nz) c = Ok c' /\
              sound c' /\ complete 1 c') /\
  (exists c', for_range3 Nx Ny Nz (edges_body_snapshot Nx Ny Nz c) c = Ok c' /\
              sound c' /\ complete 1 c').
Proof.
  destruct Nx_Ny_Nz_pos as (Hx & Hy & Hz).
  apply (pass_spec 1 (edges_rule Nx Ny Nz) (edges_body_snapshot Nx Ny Nz)).
  - intros old c0 i j k. now apply edges_body_guarded.
  - apply edges_rule_sound.
  - apply edges_rule_complete.
Qed.

Lemma faces_pass (c : ndarray) :
  sound c -> complete 1 c ->
  (exists c', for_range3 Nx Ny Nz (faces_body Nx Ny Nz) c = Ok c' /\
              sound c' /\ complete 2 c') /\
  (exists c', for_range3 Nx Ny Nz (faces_body_snapshot Nx Ny Nz c) c = Ok c' /\
              sound c' /\ complete 2 c').
Proof.
  destruct Nx_Ny_Nz_pos as (Hx & Hy & Hz).
  apply (pass_spec 2 (faces_rule Nx Ny Nz) (faces_body_snapshot Nx Ny Nz)).
  - intros old c0 i j k. now apply faces_body_guarded.
  - apply faces_rule_sound.
  - apply faces_rule_complete.
Qed.

Lemma cubes_pass (c : ndarray) :
  sound c -> complete 2 c ->
  (exists c', for_range3 Nx Ny Nz (cubes_body Nx Ny Nz) c = Ok c' /\
              sound c' /\ complete 3 c') /\
  (exists c', for_range3 Nx Ny Nz (cubes_body_snapshot Nx Ny Nz c) c = Ok c' /\
              sound c' /\ complete 3 c').
Proof.
  destruct Nx_Ny_Nz_pos as (Hx & Hy & Hz).
  apply (pass_spec 3 (cubes_rule Nx Ny Nz) (cubes_body_snapshot Nx Ny Nz)).
  - intros old c0 i j k. now apply cubes_body_guarded.
  - apply cubes_rule_sound.
  - apply cubes_rule_complete.
Qed.

(** [CubeMap] returns the complex: a cell holds 1 when all its corner
    voxels are occupied, and 0 otherwise. *)
Lemma CubeMap_complex :
  wf3 arr nx ny nz ->
  exists c, CubeMap arr = Ok c /\ wf3 c Nx Ny Nz /\
    forall x y z, inside x y z ->
      cell c x y z = if all_corners arr x y z then 1%Q else 0%Q.
Proof.
  intros Hwf.
  destruct zeros_sound as (c0 & E0 & Hs0).
  destruct (vertices_pass c0 Hwf Hs0) as (c1 & E1 & Hs1 & Hd1).
  destruct (proj1 (edges_pass c1 Hs1 Hd1)) as (c2 & E2 & Hs2 & Hd2).
  destruct (proj1 (faces_pass c2 Hs2 Hd2)) as (c3 & E3 & Hs3 & Hd3).
  destruct (proj1 (cubes_pass c3 Hs3 Hd3)) as (c4 & E4 & Hs4 & Hd4).
  exists c4. split; [|split; [apply Hs4 | now apply complex_cells]].
  unfold CubeMap. rewrite (proj1 Hwf). cbn [unpack3 bind].
  rewrite E0. cbn [bind]. rewrite E1. cbn [bind]. rewrite E2. cbn [bind].
  rewrite E3. cbn [bind]. rewrite E4. reflexivity.
Qed.

Lemma CubeMap_snapshot_complex (cubes : bool) :
  wf3 arr nx ny nz ->
  exists c, CubeMap_snapshot cubes arr = Ok c /\ wf3 c Nx Ny Nz /\
    forall x y z, inside x y z ->
      cell c x y z = if all_corners arr x y z then 1%Q else 0%Q.
Proof.
  intros Hwf.
  destruct zeros_sound as (c0 & E0 & Hs0).
  destruct (vertices_pass c0 Hwf Hs0) as (c1 & E1 & Hs1 & Hd1).
  destruct (proj2 (edges_pass c1 Hs1 Hd1)) as (c2 & E2 & Hs2 & Hd2).
  destruct (proj2 (faces_pass c2 Hs2 Hd2)) as (c3 & E3 & Hs3 & Hd3).
  assert (exists c4,
    (if cubes
     then for_range3 Nx Ny Nz (cubes_body_snapshot Nx Ny Nz c3) c3
     else for_range3 Nx Ny Nz (cubes_body Nx Ny Nz) c3) = Ok c4 /\
    sound c4 /\ complete 3 c4) as (c4 & E4 & Hs4 & Hd4).
  { destruct cubes; [apply (proj2 (cubes_pass c3 Hs3 Hd3))
                    |apply (proj1 (cubes_pass c3 Hs3 Hd3))]. }
  exists c4. split; [|split; [apply Hs4 | now apply complex_cells]].
  unfold CubeMap_snapshot. rewrite (proj1 Hwf). cbn [unpack3 bind].
  rewrite E0. cbn [bind]. rewrite E1. cbn [bind]. rewrite E2. cbn [bind].
  rewrite E3. cbn [bind]. rewrite E4. reflexivity.
Qed.
End Complex.

(** ** The buffer of a rank-3 array, cell by cell *)

Lemma cell_lookup (c : ndarray) (n0 n1 n2 i j k : Z) :
  wf3 c n0 n1 n2 -> in_range n0 n1 n2 i j k ->
  data c !! Z.to_nat (offset n1 n2 i j k) = Some (cell c i j k).
Proof.
  intros Hwf Hr. pose proof (getitem_ok c n0 n1 n2 i j k Hwf Hr) as E.
  unfold getitem in E. rewrite (proj1 Hwf) in E. destruct Hr as (Hi & Hj & Hk).
  rewrite !norm_index_in in E by assumption. simpl in E.
  destruct (data c !! Z.to_nat (offset n1 n2 i j k)); congruence.
Qed.

(** Every position of the buffer is the cell of some index in range. *)
Lemma lookup_cell (c : ndarray) (n0 n1 n2 : Z) (n : nat) :
  wf3 c n0 n1 n2 -> 0 < n1 -> 0 < n2 -> (n < length (data c))%nat ->
  let m := Z.of_nat n in
  in_range n0 n1 n2 (m / n2 / n1) ((m / n2) mod n1) (m mod n2) /\
  data c !! n = Some (cell c (m / n2 / n1) ((m / n2) mod n1) (m mod n2)).
Proof.
  intros Hwf H1 H2 Hn m. rewrite (proj2 Hwf) in Hn.
  assert (Hm : 0 <= m < n0 * n1 * n2) by lia.
  assert (Hr : in_range n0 n1 n2 (m / n2 / n1) ((m / n2) mod n1) (m mod n2)).
  { repeat split; try apply Z.mod_pos_bound; try assumption.
    - apply Z.div_pos; [apply Z.div_pos|]; lia.
    - apply Z.div_lt_upper_bound; [lia|].
      apply Z.div_lt_upper_bound; lia. }
  split; [exact Hr|].
  rewrite <- (cell_lookup c n0 n1 n2) by assumption. f_equal.
  unfold offset.
  rewrite (Z.mul_comm (m / n2 / n1)), <- (Z.div_mod (m / n2) n1) by lia.
  rewrite (Z.mul_comm (m / n2)), <- (Z.div_mod m n2) by lia.
  unfold m. now rewrite Nat2Z.id.
Qed.

Lemma Forall_cells (Pv : Q -> Prop) (c : ndarray) (n0 n1 n2 : Z) :
  wf3 c n0 n1 n2 -> 0 < n1 -> 0 < n2 ->
  (forall i j k, in_range n0 n1 n2 i j k -> Pv (cell c i j k)) ->
  Forall Pv (data c).
Proof.
  intros Hwf H1 H2 H. apply Forall_lookup. intros n v Hv.
  pose proof (lookup_lt_Some _ _ _ Hv) as Hn.
  destruct (lookup_cell c n0 n1 n2 n Hwf H1 H2 Hn) as [Hr E].
  rewrite E in Hv. injection Hv as <-. now apply H.
Qed.

Lemma cell_in_data (c : ndarray) (n0 n1 n2 i j k : Z) :
  wf3 c n0 n1 n2 -> in_range n0 n1 n2 i j k -> cell c i j k ∈ data c.
Proof.
  intros Hwf Hr. apply list_elem_of_lookup. eexists.
  now apply (cell_lookup c n0 n1 n2).
Qed.

(** Two arrays of one shape with the same cells are the same array. *)
Lemma array_ext (c c' : ndarray) (n0 n1 n2 : Z) :
  wf3 c n0 n1 n2 -> wf3 c' n0 n1 n2 -> 0 < n1 -> 0 < n2 ->
  (forall i j k, in_range n0 n1 n2 i j k -> cell c i j k = cell c' i j k) ->
  c = c'.
Proof.
  intros Hwf Hwf' H1 H2 H.
  assert (Hd : data c = data c').
  { apply list_eq. intros n.
    destruct (Nat.lt_ge_cases n (length (data c))) as [Hn|Hn].
    - destruct (lookup_cell c n0 n1 n2 n Hwf H1 H2 Hn) as [Hr E].
      assert (Hn' : (n < length (data c'))%nat)
        by (rewrite (proj2 Hwf'), <- (proj2 Hwf); exact Hn).
      destruct (lookup_cell c' n0 n1 n2 n Hwf' H1 H2 Hn') as [_ E'].
      rewrite E, E'. f_equal. now apply H.
    - rewrite (proj2 (lookup_ge_None _ _)) by exact Hn.
      rewrite (proj2 (lookup_ge_None _ _)); [reflexivity|].
      rewrite (proj2 Hwf'), <- (proj2 Hwf). exact Hn. }
  destruct c as [sh d], c' as [sh' d']. simpl in *.
  destruct Hwf as [E1 _], Hwf' as [E2 _]. simpl in E1, E2. congruence.
Qed.

(** ** The running sum of [EulerCharacteristic_seq] *)

Lemma for_each_sum (f : Z -> Z) (l : list Z) (body : Z -> Z -> result Z) :
  (forall i chi, i ∈ l -> body i chi = Ok (chi + f i)) ->
  forall chi, for_each l body chi = Ok (chi + sumZ (map f l)).
Proof.
  induction l as [|i l IH]; intros Hbody chi; simpl.
  - f_equal. unfold sumZ. simpl. lia.
  - rewrite Hbody by left. simpl. rewrite IH.
    + f_equal. unfold sumZ. simpl. lia.
    + intros j chi' Hj. apply Hbody. now right.
Qed.

Lemma sumZ_app (l1 l2 : list Z) : sumZ (l1 ++ l2) = sumZ l1 + sumZ l2.
Proof. unfold sumZ. induction l1 as [|a l1 IH]; simpl; lia. Qed.

Lemma sumZ_flat_map {A B : Type} (g : B -> Z) (h : A -> list B) (l : list A) :
  sumZ (map g (flat_map h l)) = sumZ (map (fun a => sumZ (map g (h a))) l).
Proof.
  induction l as [|a l IH]; simpl; [reflexivity|].
  rewrite map_app, sumZ_app, IH. reflexivity.
Qed.

Lemma even_mod2 (n : Z) : Z.even n = (n mod 2 =? 0).
Proof.
  rewrite Zeven_mod. reflexivity.
Qed.

Lemma euler_body_adds (A : ndarray) (nx ny nz x y z chi : Z) :
  wf3 A nx ny nz -> in_range nx ny nz x y z ->
  euler_body A x y z chi = Ok (chi + contribution A (x, y, z)).
Proof.
  intros Hwf Hr. unfold euler_body, contribution.
  rewrite (getitem_ok A nx ny nz) by assumption. unfold equals, bind.
  destruct (Qeq_bool (cell A x y z) 1); [|f_equal; lia].
  destruct ((x + y + z) mod 2 =? 0); f_equal; lia.
Qed.

(** The three loops add up the contributions of all the cells. *)
Lemma euler_loops (A : ndarray) (nx ny nz chi : Z) :
  wf3 A nx ny nz ->
  for_range3 nx ny nz (euler_body A) chi =
  Ok (chi + sumZ (map (contribution A) (lattice nx ny nz))).
Proof.
  intros Hwf. unfold lattice. rewrite sumZ_flat_map.
  unfold for_range3, for_range. apply for_each_sum.
  intros x chi1 Hx. apply elem_of_xrange in Hx. rewrite sumZ_flat_map.
  apply for_each_sum.
  intros y chi2 Hy. apply elem_of_xrange in Hy. rewrite map_map.
  apply for_each_sum.
  intros z chi3 Hz. apply elem_of_xrange in Hz.
  apply (euler_body_adds A nx ny nz); [assumption | unfold in_range; auto].
Qed.

(** The sum of the contributions is the signed count. *)
Lemma sum_contributions (A : ndarray) (l : list (Z * Z * Z)) :
  sumZ (map (contribution A) l) =
  Z.of_nat (length (List.filter even_sum (List.filter (is_one A) l)))
  - Z.of_nat (length (List.filter odd_sum (List.filter (is_one A) l))).
Proof.
  induction l as [|[[x y] z] l IH]; [reflexivity|].
  change (sumZ (map (contribution A) ((x, y, z) :: l)))
    with (contribution A (x, y, z) + sumZ (map (contribution A) l)).
  rewrite IH. simpl. unfold contribution.
  destruct (Qeq_bool (cell A x y z) 1); [|lia].
  simpl. rewrite <- Z.negb_even, even_mod2.
  destruct ((x + y + z) mod 2 =? 0); simpl; lia.
Qed.

Lemma euler_is_signed_count (A : ndarray) (nx ny nz : Z) :
  wf3 A nx ny nz -> EulerCharacteristic_seq A = Ok (signed_count A).
Proof.
  intros Hwf. unfold EulerCharacteristic_seq, signed_count.
  rewrite (proj1 Hwf). cbn [unpack3 bind].
  rewrite (euler_loops A nx ny nz) by assumption. cbn [bind].
  now rewrite sum_contributions.
Qed.

(** ** Properties of [CubeMap] *)

(** On a well-formed grid with no empty axis [CubeMap] returns an array,
    the snapshot variants return the same array, and its cells are those
    of the complex. *)
Lemma CubeMap_returns (arr : ndarray) (nx ny nz : Z) :
  well_formed arr -> shape arr = [nx; ny; nz] ->
  1 <= nx -> 1 <= ny -> 1 <= nz ->
  exists c, CubeMap arr = Ok c /\
    (forall cubes, CubeMap_snapshot cubes arr = Ok c) /\
    wf3 c (2 * nx - 1) (2 * ny - 1) (2 * nz - 1) /\
    forall x y z, in_range (2 * nx - 1) (2 * ny - 1) (2 * nz - 1) x y z ->
      cell c x y z = if all_corners arr x y z then 1%Q else 0%Q.
Proof.
  intros Hwf Hsh Hx Hy Hz.
  destruct (well_formed_wf3 arr nx ny nz Hwf Hsh) as [Hwf3 _].
  destruct (CubeMap_complex arr nx ny nz Hx Hy Hz Hwf3)
    as (c & E & Hc & Hcells).
  exists c. repeat split; try assumption; try apply Hc.
  intros cubes.
  destruct (CubeMap_snapshot_complex arr nx ny nz Hx Hy Hz cubes Hwf3)
    as (c' & E' & Hc' & Hcells').
  rewrite E'. f_equal.
  apply (array_ext c' c (2 * nx - 1) (2 * ny - 1) (2 * nz - 1));
    try assumption; try lia.
  intros i j k Hr. now rewrite Hcells, Hcells'.
Qed.

Lemma corners_odd_x (arr : ndarray) (x y z : Z) :
  all_corners arr x y z = true -> x mod 2 = 1 ->
  all_corners arr (x - 1) y z = true /\ all_corners arr (x + 1) y z = true.
Proof.
  rewrite !all_corners_spec. intros HP Hodd.
  split; intros a b c Ha Hb Hc; apply HP; auto;
    apply (ends_of_odd x a Hodd); auto.
Qed.

Lemma corners_odd_y (arr : ndarray) (x y z : Z) :
  all_corners arr x y z = true -> y mod 2 = 1 ->
  all_corners arr x (y - 1) z = true /\ all_corners arr x (y + 1) z = true.
Proof.
  rewrite !all_corners_spec. intros HP Hodd.
  split; intros a b c Ha Hb Hc; apply HP; auto;
    apply (ends_of_odd y b Hodd); auto.
Qed.

Lemma corners_odd_z (arr : ndarray) (x y z : Z) :
  all_corners arr x y z = true -> z mod 2 = 1 ->
  all_corners arr x y (z - 1) = true /\ all_corners arr x y (z + 1) = true.
Proof.
  rewrite !all_corners_spec. intros HP Hodd.
  split; intros a b c Ha Hb Hc; apply HP; auto;
    apply (ends_of_odd z c Hodd); auto.
Qed.

Lemma corners_vertex (arr : ndarray) (i j k : Z) :
  all_corners arr (2 * i) (2 * j) (2 * k) = occupied arr i j k.
Proof.
  unfold all_corners, ends.
  replace (2 * i / 2) with i by (Z.div_mod_to_equations; lia).
  replace ((2 * i + 1) / 2) with i by (Z.div_mod_to_equations; lia).
  replace (2 * j / 2) with j by (Z.div_mod_to_equations; lia).
  replace ((2 * j + 1) / 2) with j by (Z.div_mod_to_equations; lia).
  replace (2 * k / 2) with k by (Z.div_mod_to_equations; lia).
  replace ((2 * k + 1) / 2) with k by (Z.div_mod_to_equations; lia).
  simpl. destruct (occupied arr i j k); reflexivity.
Qed.

Lemma one_is_complex (arr c : ndarray) (x y z : Z) :
  cell c x y z = (if all_corners arr x y z then 1%Q else 0%Q) ->
  cell c x y z = 1%Q -> all_corners arr x y z = true.
Proof. intros E H. rewrite H in E. now destruct (all_corners arr x y z). Qed.

(** C1. Closure of the built complex: in the array [CubeMap] returns,
    whenever a cell holds 1 and one of its coordinates is odd, its two
    neighbours one step away along that axis (wrapped modulo the extent
    of the axis) hold 1 as well.  For an edge cell, which has exactly one
    odd coordinate, these are its two end vertices. *)
Theorem closure_invariant (arr : ndarray) (nx ny nz : Z) :
  well_formed arr -> shape arr = [nx; ny; nz] ->
  1 <= nx -> 1 <= ny -> 1 <= nz ->
  exists c, CubeMap arr = Ok c /\
    forall x y z,
      in_range (2 * nx - 1) (2 * ny - 1) (2 * nz - 1) x y z ->
      getitem c x y z = Ok 1%Q ->
      (x mod 2 = 1 ->
       getitem c ((x - 1) mod (2 * nx - 1)) y z = Ok 1%Q /\
       getitem c ((x + 1) mod (2 * nx - 1)) y z = Ok 1%Q) /\
      (y mod 2 = 1 ->
       getitem c x ((y - 1) mod (2 * ny - 1)) z = Ok 1%Q /\
       getitem c x ((y + 1) mod (2 * ny - 1)) z = Ok 1%Q) /\
      (z mod 2 = 1 ->
       getitem c x y ((z - 1) mod (2 * nz - 1)) = Ok 1%Q /\
       getitem c x y ((z + 1) mod (2 * nz - 1)) = Ok 1%Q).
Proof.
  intros Hwf Hsh Hx Hy Hz.
  destruct (CubeMap_returns arr nx ny nz Hwf Hsh Hx Hy Hz)
    as (c & E & _ & Hc & Hcells).
  exists c. split; [exact E|]. intros x y z Hr H1.
  rewrite (getitem_ok c _ _ _ x y z Hc Hr) in H1. injection H1 as H1.
  pose proof (one_is_complex arr c x y z (Hcells x y z Hr) H1) as HP.
  destruct Hr as (Hrx & Hry & Hrz).
  assert (Hnb : forall x' y' z',
    in_range (2 * nx - 1) (2 * ny - 1) (2 * nz - 1) x' y' z' ->
    all_corners arr x' y' z' = true -> getitem c x' y' z' = Ok 1%Q).
  { intros x' y' z' Hr' HP'.
    rewrite (getitem_ok c _ _ _ x' y' z' Hc Hr'), Hcells, HP' by assumption.
    reflexivity. }
  split; [|split]; intros Hodd.
  - destruct (odd_neighbours nx _ eq_refl x Hrx Hodd) as [Em Ep].
    destruct (corners_odd_x arr x y z HP Hodd) as [HPm HPp].
    rewrite Em, Ep.
    assert (1 <= x /\ x + 1 < 2 * nx - 1) as [? ?]
      by (clear - Hrx Hodd; Z.div_mod_to_equations; lia).
    split; apply Hnb; auto; unfold in_range; lia.
  - destruct (odd_neighbours ny _ eq_refl y Hry Hodd) as [Em Ep].
    destruct (corners_odd_y arr x y z HP Hodd) as [HPm HPp].
    rewrite Em, Ep.
    assert (1 <= y /\ y + 1 < 2 * ny - 1) as [? ?]
      by (clear - Hry Hodd; Z.div_mod_to_equations; lia).
    split; apply Hnb; auto; unfold in_range; lia.
  - destruct (odd_neighbours nz _ eq_refl z Hrz Hodd) as [Em Ep].
    destruct (corners_odd_z arr x y z HP Hodd) as [HPm HPp].
    rewrite Em, Ep.
    assert (1 <= z /\ z + 1 < 2 * nz - 1) as [? ?]
      by (clear - Hrz Hodd; Z.div_mod_to_equations; lia).
    split; apply Hnb; auto; unfold in_range; lia.
Qed.

Lemma corner_grid_well_formed : well_formed corner_grid.
Proof. split; [repeat constructor; lia | reflexivity]. Defined.

Lemma closure_invariant_witness :
  exists c, CubeMap corner_grid = Ok c /\
    forall x y z,
      in_range (2 * 2 - 1) (2 * 2 - 1) (2 * 1 - 1) x y z ->
      getitem c x y z = Ok 1%Q ->
      (x mod 2 = 1 ->
       getitem c ((x - 1) mod (2 * 2 - 1)) y z = Ok 1%Q /\
       getitem c ((x + 1) mod (2 * 2 - 1)) y z = Ok 1%Q) /\
      (y mod 2 = 1 ->
       getitem c x ((y - 1) mod (2 * 2 - 1)) z = Ok 1%Q /\
       getitem c x ((y + 1) mod (2 * 2 - 1)) z = Ok 1%Q) /\
      (z mod 2 = 1 ->
       getitem c x y ((z - 1) mod (2 * 1 - 1)) = Ok 1%Q /\
       getitem c x y ((z + 1) mod (2 * 1 - 1)) = Ok 1%Q).
Proof.
  apply (closure_invariant corner_grid 2 2 1);
    [exact corner_grid_well_formed | reflexivity | lia | lia | lia].
Defined.

Lemma binary_truthy (v : Q) :
  (v == 0)%Q \/ (v == 1)%Q -> ((if truthy v then 1 else 0) == v)%Q.
Proof.
  unfold truthy. intros [E|E].
  - rewrite (proj2 (Qeq_bool_iff v 0) E). simpl. now symmetry.
  - destruct (Qeq_bool v 0) eqn:E0; simpl; [|now symmetry].
    apply Qeq_bool_iff in E0. rewrite E0 in E. discriminate.
Qed.

(** C3. Vertex placement survives the later passes: on a binary grid,
    the all-even cell [(2i, 2j, 2k)] of the array [CubeMap] returns equals
    the voxel [(i, j, k)] of the grid, so that no pass sets the vertex of
    an empty voxel. *)
Theorem vertices_preserved (arr : ndarray) (nx ny nz : Z) :
  well_formed arr -> shape arr = [nx; ny; nz] ->
  1 <= nx -> 1 <= ny -> 1 <= nz ->
  Forall (fun v => (v == 0)%Q \/ (v == 1)%Q) (data arr) ->
  exists c, CubeMap arr = Ok c /\
    forall i j k, in_range nx ny nz i j k ->
      exists v w, getitem c (2 * i) (2 * j) (2 * k) = Ok v /\
                  getitem arr i j k = Ok w /\ (v == w)%Q.
Proof.
  intros Hwf Hsh Hx Hy Hz Hbin.
  destruct (CubeMap_returns arr nx ny nz Hwf Hsh Hx Hy Hz)
    as (c & E & _ & Hc & Hcells).
  destruct (well_formed_wf3 arr nx ny nz Hwf Hsh) as [Hwf3 _].
  exists c. split; [exact E|]. intros i j k Hr.
  assert (Hr2 : in_range (2 * nx - 1) (2 * ny - 1) (2 * nz - 1)
                  (2 * i) (2 * j) (2 * k))
    by (unfold in_range in *; lia).
  exists (cell c (2 * i) (2 * j) (2 * k)), (cell arr i j k).
  split; [now apply (getitem_ok c (2 * nx - 1) (2 * ny - 1) (2 * nz - 1))|].
  split; [now apply (getitem_ok arr nx ny nz)|].
  rewrite Hcells, corners_vertex by assumption. unfold occupied.
  apply binary_truthy.
  pose proof (cell_in_data arr nx ny nz i j k Hwf3 Hr) as Hin.
  rewrite Forall_forall in Hbin. now apply Hbin.
Qed.

Lemma binary_grid_well_formed : well_formed binary_grid.
Proof. split; [repeat constructor; lia | reflexivity]. Defined.

Lemma binary_grid_binary :
  Forall (fun v => (v == 0)%Q \/ (v == 1)%Q) (data binary_grid).
Proof.
  repeat constructor; (now left) || (now right).
Defined.

Lemma vertices_preserved_witness :
  exists c, CubeMap binary_grid = Ok c /\
    forall i j k, in_range 2 2 1 i j k ->
      exists v w, getitem c (2 * i) (2 * j) (2 * k) = Ok v /\
                  getitem binary_grid i j k = Ok w /\ (v == w)%Q.
Proof.
  apply (vertices_preserved binary_grid 2 2 1);
    [exact binary_grid_well_formed | reflexivity | lia | lia | lia
    | exact binary_grid_binary].
Defined.

(** C4. The in-place scan and the snapshot variant agree: on every grid
    [CubeMap], whose edge and face passes read the array they are
    writing, returns the very array returned by the variant whose edge and
    face passes (and, with [cubes = true], cube pass) read a snapshot taken
    when the pass begins. *)
Theorem in_place_equals_snapshot (arr : ndarray) (nx ny nz : Z) :
  well_formed arr -> shape arr = [nx; ny; nz] ->
  1 <= nx -> 1 <= ny -> 1 <= nz ->
  exists c, CubeMap arr = Ok c /\
            forall cubes, CubeMap_snapshot cubes arr = Ok c.
Proof.
  intros Hwf Hsh Hx Hy Hz.
  destruct (CubeMap_returns arr nx ny nz Hwf Hsh Hx Hy Hz)
    as (c & E & Esnap & _).
  exists c. auto.
Qed.

Lemma in_place_equals_snapshot_witness :
  exists c, CubeMap corner_grid = Ok c /\
            forall cubes, CubeMap_snapshot cubes corner_grid = Ok c.
Proof.
  apply (in_place_equals_snapshot corner_grid 2 2 1);
    [exact corner_grid_well_formed | reflexivity | lia | lia | lia].
Defined.

(** C6. Output shape: on a grid of shape [(nx, ny, nz)] with no empty
    axis, [CubeMap] returns an array of shape
    [(2 * nx - 1, 2 * ny - 1, 2 * nz - 1)]. *)
Theorem output_shape (arr : ndarray) (nx ny nz : Z) :
  well_formed arr -> shape arr = [nx; ny; nz] ->
  1 <= nx -> 1 <= ny -> 1 <= nz ->
  exists c, CubeMap arr = Ok c /\
            shape c = [2 * nx - 1; 2 * ny - 1; 2 * nz - 1] /\
            well_formed c.
Proof.
  intros Hwf Hsh Hx Hy Hz.
  destruct (CubeMap_returns arr nx ny nz Hwf Hsh Hx Hy Hz)
    as (c & E & _ & [Hshape Hlen] & _).
  exists c. split; [exact E|]. split; [exact Hshape|].
  split; rewrite Hshape.
  - repeat constructor; lia.
  - rewrite Hlen. unfold size_of. simpl. f_equal. ring.
Qed.

Lemma output_shape_witness :
  exists c, CubeMap corner_grid = Ok c /\
            shape c = [2 * 2 - 1; 2 * 2 - 1; 2 * 1 - 1] /\
            well_formed c.
Proof.
  apply (output_shape corner_grid 2 2 1);
    [exact corner_grid_well_formed | reflexivity | lia | lia | lia].
Defined.

(** C9. Binary output: whatever numbers the grid holds, every element of
    the array [CubeMap] returns is exactly 0 or exactly 1. *)
Theorem output_binary (arr : ndarray) (nx ny nz : Z) :
  well_formed arr -> shape arr = [nx; ny; nz] ->
  1 <= nx -> 1 <= ny -> 1 <= nz ->
  exists c, CubeMap arr = Ok c /\
            Forall (fun v => v = 0%Q \/ v = 1%Q) (data c).
Proof.
  intros Hwf Hsh Hx Hy Hz.
  destruct (CubeMap_returns arr nx ny nz Hwf Hsh Hx Hy Hz)
    as (c & E & _ & Hc & Hcells).
  exists c. split; [exact E|].
  apply (Forall_cells _ c _ _ _ Hc); try lia.
  intros i j k Hr. rewrite Hcells by assumption.
  destruct (all_corners arr i j k); auto.
Qed.

Lemma output_binary_witness :
  exists c, CubeMap corner_grid = Ok c /\
            Forall (fun v => v = 0%Q \/ v = 1%Q) (data c).
Proof.
  apply (output_binary corner_grid 2 2 1);
    [exact corner_grid_well_formed | reflexivity | lia | lia | lia].
Defined.

(** The source does read cells written earlier in the same pass: from an
    array that no vertex pass produces, the in-place edge pass and the
    edge pass over a snapshot end differently.  The agreement above holds
    on the arrays the passes of [CubeMap] start from. *)
Example edges_pass_reads_in_place :
  let c := mk_ndarray [3; 3; 1]
             [1%Q; 0%Q; 1%Q;  0%Q; 0%Q; 0%Q;  0%Q; 1%Q; 0%Q] in
  for_range3 3 3 1 (edges_body 3 3 1) c
  = Ok (mk_ndarray [3; 3; 1]
             [1%Q; 1%Q; 1%Q;  0%Q; 1%Q; 0%Q;  0%Q; 1%Q; 0%Q]) /\
  for_range3 3 3 1 (edges_body_snapshot 3 3 1 c) c
  = Ok (mk_ndarray [3; 3; 1]
             [1%Q; 1%Q; 1%Q;  0%Q; 0%Q; 0%Q;  0%Q; 1%Q; 0%Q]).
Proof. split; vm_compute; reflexivity. Qed.

(** ** Properties of [EulerCharacteristic_seq] *)

Lemma two_voxels_well_formed : well_formed two_voxels.
Proof. split; [repeat constructor; lia | reflexivity]. Defined.

(** C2. The Euler characteristic is the signed count: on every rank-3
    array [EulerCharacteristic_seq] returns the number of cells equal to 1
    whose coordinates have an even sum minus the number of those whose
    coordinates have an odd sum; the result can be zero, positive or
    negative. *)
Theorem euler_signed_count :
  (forall (A : ndarray) (nx ny nz : Z),
     well_formed A -> shape A = [nx; ny; nz] ->
     EulerCharacteristic_seq A = Ok (signed_count A)) /\
  (exists A, well_formed A /\ EulerCharacteristic_seq A = Ok 0) /\
  (exists A chi, well_formed A /\ EulerCharacteristic_seq A = Ok chi /\
                 0 < chi) /\
  (exists A chi, well_formed A /\ EulerCharacteristic_seq A = Ok chi /\
                 chi < 0).
Proof.
  split; [|split; [|split]].
  - intros A nx ny nz Hwf Hsh.
    destruct (well_formed_wf3 A nx ny nz Hwf Hsh) as [Hwf3 _].
    now apply (euler_is_signed_count A nx ny nz).
  - exists (mk_ndarray [1; 1; 1] [0%Q]). split.
    + split; [repeat constructor; lia | reflexivity].
    + reflexivity.
  - exists (mk_ndarray [1; 1; 1] [1%Q]), 1. split.
    + split; [repeat constructor; lia | reflexivity].
    + split; [reflexivity | lia].
  - exists (mk_ndarray [2; 1; 1] [0%Q; 1%Q]), (-1). split.
    + split; [repeat constructor; lia | reflexivity].
    + split; [reflexivity | lia].
Qed.

Lemma euler_signed_count_witness :
  EulerCharacteristic_seq two_voxels = Ok (signed_count two_voxels).
Proof.
  apply (proj1 euler_signed_count two_voxels 2 1 1);
    [exact two_voxels_well_formed | reflexivity].
Defined.

Lemma for_each_skip {S : Type} (l : list Z) (body : Z -> S -> result S) :
  (forall i s, body i s = Ok s) -> forall s, for_each l body s = Ok s.
Proof.
  intros H. induction l as [|i l IH]; intros s; simpl; [reflexivity|].
  rewrite H. simpl. apply IH.
Qed.

(** With an axis of length zero the innermost body never runs. *)
Lemma for_range3_empty {S : Type} (n0 n1 n2 : Z)
    (body : Z -> Z -> Z -> S -> result S) (s : S) :
  n0 = 0 \/ n1 = 0 \/ n2 = 0 -> for_range3 n0 n1 n2 body s = Ok s.
Proof.
  intros H. unfold for_range3, for_range.
  destruct H as [-> | [-> | ->]].
  - reflexivity.
  - apply for_each_skip. intros i s1. reflexivity.
  - apply for_each_skip. intros i s1.
    apply for_each_skip. intros j s2. reflexivity.
Qed.

Lemma euler_body_other (A : ndarray) (nx ny nz x y z chi : Z) :
  wf3 A nx ny nz -> in_range nx ny nz x y z ->
  ~ (cell A x y z == 1)%Q -> euler_body A x y z chi = Ok chi.
Proof.
  intros Hwf Hr Hne. unfold euler_body.
  rewrite (getitem_ok A nx ny nz) by assumption. unfold equals, bind.
  destruct (Qeq_bool (cell A x y z) 1) eqn:E; [|reflexivity].
  apply Qeq_bool_iff in E. contradiction.
Qed.

(** Without a cell equal to 1 the sum stays at 0. *)
Lemma euler_no_ones (A : ndarray) (nx ny nz : Z) :
  wf3 A nx ny nz -> Forall (fun v => ~ (v == 1)%Q) (data A) ->
  EulerCharacteristic_seq A = Ok 0.
Proof.
  intros Hwf Hall. unfold EulerCharacteristic_seq.
  rewrite (proj1 Hwf). cbn [unpack3 bind].
  destruct (for_range3_spec (@eq Z) (@eq_refl Z) (@eq_trans Z)
              (fun chi => chi = 0) (fun _ _ _ _ => True) nx ny nz
              (euler_body A)) with (s := 0)
    as (chi & E & -> & _); [auto| |reflexivity|].
  - intros x y z chi Hx Hy Hz ->. exists 0.
    split; [|auto].
    assert (Hr : in_range nx ny nz x y z) by (unfold in_range; auto).
    apply (euler_body_other A nx ny nz); auto.
    rewrite Forall_forall in Hall. apply Hall.
    now apply (cell_in_data A nx ny nz).
  - rewrite E. reflexivity.
Qed.

(** C10. Only the cells equal to 1 count: a cell equal to 1 moves the
    sum by one, up or down; a cell holding any other number leaves it as
    it is; and on an array without any cell equal to 1 the result is 0. *)
Theorem euler_counts_only_ones (A : ndarray) (nx ny nz : Z) :
  well_formed A -> shape A = [nx; ny; nz] ->
  (forall x y z chi v, in_range nx ny nz x y z ->
     getitem A x y z = Ok v -> (v == 1)%Q ->
     euler_body A x y z chi = Ok (chi + 1) \/
     euler_body A x y z chi = Ok (chi - 1)) /\
  (forall x y z chi v, in_range nx ny nz x y z ->
     getitem A x y z = Ok v -> ~ (v == 1)%Q ->
     euler_body A x y z chi = Ok chi) /\
  (Forall (fun v => ~ (v == 1)%Q) (data A) ->
   EulerCharacteristic_seq A = Ok 0).
Proof.
  intros Hwf Hsh.
  destruct (well_formed_wf3 A nx ny nz Hwf Hsh) as [Hwf3 _].
  split; [|split].
  - intros x y z chi v Hr Hv H1. unfold euler_body. rewrite Hv.
    unfold equals, bind. rewrite (proj2 (Qeq_bool_iff v 1) H1).
    destruct ((x + y + z) mod 2 =? 0); auto.
  - intros x y z chi v Hr Hv H1.
    rewrite (getitem_ok A nx ny nz x y z Hwf3 Hr) in Hv. injection Hv as <-.
    now apply (euler_body_other A nx ny nz).
  - now apply (euler_no_ones A nx ny nz).
Qed.

Lemma halves_grid_well_formed : well_formed halves_grid.
Proof. split; [repeat constructor; lia | reflexivity]. Defined.

Lemma euler_counts_only_ones_witness :
  Forall (fun v => ~ (v == 1)%Q) (data halves_grid) /\
  EulerCharacteristic_seq halves_grid = Ok 0.
Proof.
  assert (H : Forall (fun v => ~ (v == 1)%Q) (data halves_grid))
    by (repeat constructor; intros E; discriminate E).
  split; [exact H|].
  apply (proj2 (proj2 (euler_counts_only_ones halves_grid 1 2 2
                         halves_grid_well_formed eq_refl))).
  exact H.
Defined.

(** ** Test vectors *)

(** C7. Two adjacent voxels: from the grid of shape [(2, 1, 1)] with both
    voxels at 1 [CubeMap] returns the array of shape [(3, 1, 1)] that
    reads 1, 1, 1 along x (vertex, edge, vertex), of which
    [EulerCharacteristic_seq] returns 1. *)
Theorem two_voxels_vector :
  exists c, CubeMap two_voxels = Ok c /\
    shape c = [3; 1; 1] /\
    data c = [1%Q; 1%Q; 1%Q] /\
    getitem c 0 0 0 = Ok 1%Q /\
    getitem c 1 0 0 = Ok 1%Q /\
    getitem c 2 0 0 = Ok 1%Q /\
    EulerCharacteristic_seq c = Ok 1.
Proof.
  exists (mk_ndarray [3; 1; 1] [1%Q; 1%Q; 1%Q]).
  repeat split; vm_compute; reflexivity.
Qed.

Lemma zero_not_truthy (v : Q) : (v == 0)%Q -> truthy v = false.
Proof.
  intros E. unfold truthy. now rewrite (proj2 (Qeq_bool_iff v 0) E).
Qed.

(** C8. The empty grid: from an all-zero grid of any shape [CubeMap]
    returns an all-zero array, and [EulerCharacteristic_seq] returns 0 of
    that array and of the grid itself. *)
Theorem empty_grid_empty_complex (arr : ndarray) (nx ny nz : Z) :
  well_formed arr -> shape arr = [nx; ny; nz] ->
  1 <= nx -> 1 <= ny -> 1 <= nz ->
  Forall (fun v => (v == 0)%Q) (data arr) ->
  exists c, CubeMap arr = Ok c /\
    Forall (fun v => v = 0%Q) (data c) /\
    EulerCharacteristic_seq c = Ok 0 /\
    EulerCharacteristic_seq arr = Ok 0.
Proof.
  intros Hwf Hsh Hx Hy Hz Hzero.
  destruct (CubeMap_returns arr nx ny nz Hwf Hsh Hx Hy Hz)
    as (c & E & _ & Hc & Hcells).
  destruct (well_formed_wf3 arr nx ny nz Hwf Hsh) as [Hwf3 _].
  assert (Hc0 : Forall (fun v => v = 0%Q) (data c)).
  { apply (Forall_cells _ c _ _ _ Hc); try lia.
    intros x y z Hr. rewrite Hcells by assumption.
    destruct (all_corners arr x y z) eqn:HP; [|reflexivity].
    apply all_corners_spec in HP.
    specialize (HP (x / 2) (y / 2) (z / 2)).
    rewrite !in_ends in HP. unfold occupied in HP.
    rewrite zero_not_truthy in HP; [discriminate HP; auto|].
    rewrite Forall_forall in Hzero. apply Hzero.
    apply (cell_in_data arr nx ny nz); [assumption|].
    unfold in_range in *. Z.div_mod_to_equations. lia. }
  exists c. split; [exact E|]. split; [exact Hc0|]. split.
  - apply (euler_no_ones c _ _ _ Hc).
    eapply Forall_impl; [exact Hc0|]. intros v -> H. discriminate H.
  - apply (euler_no_ones arr nx ny nz Hwf3).
    eapply Forall_impl; [exact Hzero|]. intros v E0 E1.
    rewrite E0 in E1. discriminate E1.
Qed.

Lemma empty_grid_well_formed : well_formed empty_grid.
Proof. split; [repeat constructor; lia | reflexivity]. Defined.

Lemma empty_grid_empty_complex_witness :
  exists c, CubeMap empty_grid = Ok c /\
    Forall (fun v => v = 0%Q) (data c) /\
    EulerCharacteristic_seq c = Ok 0 /\
    EulerCharacteristic_seq empty_grid = Ok 0.
Proof.
  apply (empty_grid_empty_complex empty_grid 2 1 2);
    [exact empty_grid_well_formed | reflexivity | lia | lia | lia |].
  repeat constructor.
Defined.

(** ** Arrays of the wrong shape *)

Lemma unpack3_wrong_rank (sh : list Z) :
  length sh <> 3%nat -> unpack3 sh = Raise ValueError.
Proof.
  destruct sh as [|a [|b [|c [|d sh]]]]; simpl; intros H;
    reflexivity || contradiction.
Qed.

(** C5, as the code has it.  Neither function validates its argument
    and neither raises a dedicated error: on an array whose rank is not 3
    both fail with the [ValueError] of the tuple unpacking of its shape;
    on a rank-3 array with an axis of length zero [CubeMap] fails with the
    [ValueError] of [np.zeros] (a negative dimension), whereas
    [EulerCharacteristic_seq] returns 0. *)
Theorem shape_failures (a : ndarray) :
  well_formed a ->
  (length (shape a) <> 3%nat ->
   CubeMap a = Raise ValueError /\
   EulerCharacteristic_seq a = Raise ValueError) /\
  (length (shape a) = 3%nat -> In 0 (shape a) ->
   CubeMap a = Raise ValueError /\
   EulerCharacteristic_seq a = Ok 0).
Proof.
  intros Hwf. split.
  - intros Hrank. unfold CubeMap, EulerCharacteristic_seq.
    rewrite (unpack3_wrong_rank _ Hrank). split; reflexivity.
  - intros Hrank Hzero.
    destruct (shape a) as [|nx [|ny [|nz [|d sh]]]] eqn:Hsh;
      try discriminate Hrank.
    split.
    + unfold CubeMap. rewrite Hsh. cbn [unpack3 bind].
      assert (Hneg : forallb (fun n => 0 <=? n)
                       [2 * nx - 1; 2 * ny - 1; 2 * nz - 1] = false).
      { apply not_true_iff_false. rewrite forallb_forall. intros H.
        assert (Hn : forall n, In n [nx; ny; nz] -> 0 <= 2 * n - 1).
        { intros n Hn. apply Z.leb_le, H. simpl in *. intuition (subst; auto). }
        specialize (Hn 0 Hzero). lia. }
      unfold np_zeros. rewrite Hneg. reflexivity.
    + unfold EulerCharacteristic_seq. rewrite Hsh. cbn [unpack3 bind].
      rewrite for_range3_empty; [reflexivity|].
      simpl in Hzero. intuition.
Qed.

Lemma shape_failures_witness :
  (CubeMap flat_array = Raise ValueError /\
   EulerCharacteristic_seq flat_array = Raise ValueError) /\
  (CubeMap deep_array = Raise ValueError /\
   EulerCharacteristic_seq deep_array = Raise ValueError) /\
  (CubeMap zero_axis_array = Raise ValueError /\
   EulerCharacteristic_seq zero_axis_array = Ok 0).
Proof.
  split; [|split].
  - apply (proj1 (shape_failures flat_array
                    ltac:(split; [repeat constructor; lia | reflexivity]))).
    simpl. lia.
  - apply (proj1 (shape_failures deep_array
                    ltac:(split; [repeat constructor; lia | reflexivity]))).
    simpl. lia.
  - apply (proj2 (shape_failures zero_axis_array
                    ltac:(split; [repeat constructor; lia | reflexivity]))).
    + reflexivity.
    + left. reflexivity.
Defined.

(** C5, as stated, fails: on a rank-3 array with an axis of length zero
    [EulerCharacteristic_seq] returns 0 and raises nothing, and what the
    two functions raise on a rank-2 array is a [ValueError], not a
    [ShapeError]. *)
Lemma shape_error_refuted :
  (well_formed zero_axis_array /\ In 0 (shape zero_axis_array) /\
   EulerCharacteristic_seq zero_axis_array = Ok 0 /\
   ~ raises (EulerCharacteristic_seq zero_axis_array) "ShapeError") /\
  (well_formed flat_array /\ length (shape flat_array) = 2%nat /\
   ~ raises (CubeMap flat_array) "ShapeError" /\
   ~ raises (EulerCharacteristic_seq flat_array) "ShapeError").
Proof.
  split.
  - split; [split; [repeat constructor; lia | reflexivity]|].
    split; [left; reflexivity|]. split; [reflexivity|].
    intros (e & E & _). discriminate E.
  - split; [split; [repeat constructor; lia | reflexivity]|].
    split; [reflexivity|].
    split; intros (e & E & Hn); injection E as <-; discriminate Hn.
Qed.

(** ** Further properties of [CubeMap] *)

Lemma ends_in_range (n x i : Z) :
  0 <= x < 2 * n - 1 -> In i (ends x) -> 0 <= i < n.
Proof. rewrite in_ends. intros Hx Hi. Z.div_mod_to_equations. lia. Qed.

(** Which cells belong to the complex only depends on which voxels are
    occupied, and grows with them. *)
Lemma corners_mono (arr arr' : ndarray) (nx ny nz x y z : Z) :
  (forall i j k, in_range nx ny nz i j k ->
     occupied arr i j k = true -> occupied arr' i j k = true) ->
  in_range (2 * nx - 1) (2 * ny - 1) (2 * nz - 1) x y z ->
  all_corners arr x y z = true -> all_corners arr' x y z = true.
Proof.
  intros Hsub (Hx & Hy & Hz). rewrite !all_corners_spec.
  intros HP i j k Hi Hj Hk. apply Hsub; [|now apply HP].
  repeat split;
    apply (ends_in_range nx x i Hx Hi) || apply (ends_in_range ny y j Hy Hj)
    || apply (ends_in_range nz z k Hz Hk).
Qed.

(** X1. The cells of the array [CubeMap] returns, one by one: a cell holds 1
    when the voxels at all its corners are truthy and 0 when one of them
    is not.  The corners of [(x, y, z)] are the voxels [(i, j, k)] with
    [i] one of [x / 2], [(x + 1) / 2] and likewise for [j] and [k]; none
    of them is reached through the wrap-around of the tests. *)
Theorem CubeMap_cells (arr : ndarray) (nx ny nz : Z) :
  well_formed arr -> shape arr = [nx; ny; nz] ->
  1 <= nx -> 1 <= ny -> 1 <= nz ->
  exists c, CubeMap arr = Ok c /\
    forall x y z, in_range (2 * nx - 1) (2 * ny - 1) (2 * nz - 1) x y z ->
      (corners_occupied arr x y z /\ getitem c x y z = Ok 1%Q) \/
      (~ corners_occupied arr x y z /\ getitem c x y z = Ok 0%Q).
Proof.
  intros Hwf Hsh Hx Hy Hz.
  destruct (CubeMap_returns arr nx ny nz Hwf Hsh Hx Hy Hz)
    as (c & E & _ & Hc & Hcells).
  exists c. split; [exact E|]. intros x y z Hr.
  rewrite (getitem_ok c _ _ _ x y z Hc Hr), (Hcells x y z Hr).
  destruct (all_corners arr x y z) eqn:HP.
  - left. split; [now apply all_corners_spec | reflexivity].
  - right. split; [|reflexivity]. intros H.
    apply all_corners_spec in H. congruence.
Qed.

Lemma CubeMap_cells_witness :
  exists c, CubeMap corner_grid = Ok c /\
    forall x y z, in_range (2 * 2 - 1) (2 * 2 - 1) (2 * 1 - 1) x y z ->
      (corners_occupied corner_grid x y z /\ getitem c x y z = Ok 1%Q) \/
      (~ corners_occupied corner_grid x y z /\ getitem c x y z = Ok 0%Q).
Proof.
  apply (CubeMap_cells corner_grid 2 2 1);
    [exact corner_grid_well_formed | reflexivity | lia | lia | lia].
Defined.

(** X2. [CubeMap] only looks at which voxels are truthy: two grids of one
    shape with the same occupied voxels give the same array, whatever
    numbers they hold. *)
Theorem CubeMap_truthiness (arr arr' : ndarray) (nx ny nz : Z) :
  well_formed arr -> shape arr = [nx; ny; nz] ->
  well_formed arr' -> shape arr' = [nx; ny; nz] ->
  1 <= nx -> 1 <= ny -> 1 <= nz ->
  (forall i j k, in_range nx ny nz i j k ->
     occupied arr i j k = occupied arr' i j k) ->
  exists c, CubeMap arr = Ok c /\ CubeMap arr' = Ok c.
Proof.
  intros Hwf Hsh Hwf' Hsh' Hx Hy Hz Hsame.
  destruct (CubeMap_returns arr nx ny nz Hwf Hsh Hx Hy Hz)
    as (c & E & _ & Hc & Hcells).
  destruct (CubeMap_returns arr' nx ny nz Hwf' Hsh' Hx Hy Hz)
    as (c' & E' & _ & Hc' & Hcells').
  exists c. split; [exact E|]. rewrite E'. f_equal.
  apply (array_ext c' c (2 * nx - 1) (2 * ny - 1) (2 * nz - 1));
    try assumption; try lia.
  intros x y z Hr. rewrite Hcells, Hcells' by assumption.
  destruct (all_corners arr x y z) eqn:HP, (all_corners arr' x y z) eqn:HP';
    try reflexivity.
  - rewrite (corners_mono arr arr' nx ny nz x y z) in HP'; auto;
      [discriminate|]. intros i j k Hijk. now rewrite Hsame.
  - rewrite (corners_mono arr' arr nx ny nz x y z) in HP; auto;
      [discriminate|]. intros i j k Hijk. now rewrite Hsame.
Qed.

Lemma CubeMap_truthiness_witness :
  exists c, CubeMap corner_grid = Ok c /\ CubeMap binary_grid = Ok c.
Proof.
  apply (CubeMap_truthiness corner_grid binary_grid 2 2 1);
    [exact corner_grid_well_formed | reflexivity
    | exact binary_grid_well_formed | reflexivity | lia | lia | lia |].
  intros i j k (Hi & Hj & Hk).
  assert (Hi' : i = 0 \/ i = 1) by lia.
  assert (Hj' : j = 0 \/ j = 1) by lia.
  assert (Hk' : k = 0) by lia.
  destruct Hi' as [-> | ->], Hj' as [-> | ->]; subst k; reflexivity.
Defined.

(** X3. [CubeMap] is monotone: occupying more voxels never removes a cell. *)
Theorem CubeMap_monotone (arr arr' : ndarray) (nx ny nz : Z) :
  well_formed arr -> shape arr = [nx; ny; nz] ->
  well_formed arr' -> shape arr' = [nx; ny; nz] ->
  1 <= nx -> 1 <= ny -> 1 <= nz ->
  (forall i j k, in_range nx ny nz i j k ->
     occupied arr i j k = true -> occupied arr' i j k = true) ->
  exists c c', CubeMap arr = Ok c /\ CubeMap arr' = Ok c' /\
    forall x y z, in_range (2 * nx - 1) (2 * ny - 1) (2 * nz - 1) x y z ->
      getitem c x y z = Ok 1%Q -> getitem c' x y z = Ok 1%Q.
Proof.
  intros Hwf Hsh Hwf' Hsh' Hx Hy Hz Hsub.
  destruct (CubeMap_returns arr nx ny nz Hwf Hsh Hx Hy Hz)
    as (c & E & _ & Hc & Hcells).
  destruct (CubeMap_returns arr' nx ny nz Hwf' Hsh' Hx Hy Hz)
    as (c' & E' & _ & Hc' & Hcells').
  exists c, c'. split; [exact E|]. split; [exact E'|].
  intros x y z Hr H1.
  rewrite (getitem_ok c _ _ _ x y z Hc Hr) in H1. injection H1 as H1.
  pose proof (one_is_complex arr c x y z (Hcells x y z Hr) H1) as HP.
  rewrite (getitem_ok c' _ _ _ x y z Hc' Hr), Hcells' by assumption.
  now rewrite (corners_mono arr arr' nx ny nz x y z Hsub Hr HP).
Qed.

Lemma full_grid_well_formed : well_formed full_grid.
Proof. split; [repeat constructor; lia | reflexivity]. Defined.

Lemma full_grid_occupied (i j k : Z) :
  in_range 2 2 1 i j k -> occupied full_grid i j k = true.
Proof.
  intros (Hi & Hj & Hk).
  assert (Hi' : i = 0 \/ i = 1) by lia.
  assert (Hj' : j = 0 \/ j = 1) by lia.
  assert (Hk' : k = 0) by lia.
  destruct Hi' as [-> | ->], Hj' as [-> | ->]; subst k; reflexivity.
Defined.

Lemma CubeMap_monotone_witness :
  exists c c', CubeMap binary_grid = Ok c /\ CubeMap full_grid = Ok c' /\
    forall x y z, in_range (2 * 2 - 1) (2 * 2 - 1) (2 * 1 - 1) x y z ->
      getitem c x y z = Ok 1%Q -> getitem c' x y z = Ok 1%Q.
Proof.
  apply (CubeMap_monotone binary_grid full_grid 2 2 1);
    [exact binary_grid_well_formed | reflexivity
    | exact full_grid_well_formed | reflexivity | lia | lia | lia |].
  intros i j k Hr _. now apply full_grid_occupied.
Defined.

Lemma for_each_fixed {S : Type} (l : list Z) (body : Z -> S -> result S)
    (s : S) :
  (forall i, i ∈ l -> body i s = Ok s) -> for_each l body s = Ok s.
Proof.
  induction l as [|i l IH]; intros H; simpl; [reflexivity|].
  rewrite H by left. simpl. apply IH. intros j Hj. apply H. now right.
Qed.

Lemma for_range3_fixed {S : Type} (n0 n1 n2 : Z)
    (body : Z -> Z -> Z -> S -> result S) (s : S) :
  (forall i j k, 0 <= i < n0 -> 0 <= j < n1 -> 0 <= k < n2 ->
     body i j k s = Ok s) ->
  for_range3 n0 n1 n2 body s = Ok s.
Proof.
  intros H. unfold for_range3, for_range.
  apply for_each_fixed. intros i Hi. apply elem_of_xrange in Hi.
  apply for_each_fixed. intros j Hj. apply elem_of_xrange in Hj.
  apply for_each_fixed. intros k Hk. apply elem_of_xrange in Hk.
  now apply H.
Qed.

Lemma dim_bound (x y z : Z) : 0 <= dim x y z <= 3.
Proof.
  unfold dim.
  pose proof (Z.mod_pos_bound x 2). pose proof (Z.mod_pos_bound y 2).
  pose proof (Z.mod_pos_bound z 2). lia.
Qed.

(** The array of the complex is sound and complete in every dimension. *)
Lemma complex_sound_complete (arr c : ndarray) (Nx Ny Nz : Z) :
  wf3 c Nx Ny Nz ->
  (forall x y z, in_range Nx Ny Nz x y z ->
     cell c x y z = if all_corners arr x y z then 1%Q else 0%Q) ->
  Sound (corners_occupied arr) Nx Ny Nz c /\
  Done (corners_occupied arr) Nx Ny Nz 3 c.
Proof.
  intros Hc Hcells. split; [split; [exact Hc|]|].
  - intros x y z Hr. rewrite (Hcells x y z Hr).
    destruct (all_corners arr x y z) eqn:HP; [right|left]; auto.
    split; [reflexivity | now apply all_corners_spec].
  - intros x y z Hr HP _. rewrite (Hcells x y z Hr).
    apply all_corners_spec in HP. now rewrite HP.
Qed.

(** On a sound and complete array the guard of a store never holds. *)
Lemma guard_idle (arr c : ndarray) (Nx Ny Nz i j k : Z) (rule : bool) :
  Sound (corners_occupied arr) Nx Ny Nz c ->
  Done (corners_occupied arr) Nx Ny Nz 3 c ->
  in_range Nx Ny Nz i j k ->
  (cell c i j k = 0%Q -> rule = true -> corners_occupied arr i j k) ->
  Qeq_bool (cell c i j k) 0 && rule = false.
Proof.
  intros [_ Hs] Hd Hr Hrule.
  destruct (Hs i j k Hr) as [E0|[E1 _]].
  - destruct rule; [|now rewrite andb_false_r].
    pose proof (Hd i j k Hr (Hrule E0 eq_refl) (proj2 (dim_bound i j k))) as E1.
    rewrite E1 in E0. discriminate.
  - rewrite E1. reflexivity.
Qed.

(** X4. The array [CubeMap] returns is a fixed point of its three promotion
    passes: running the edge pass, the face pass or the cube pass once
    more on it, in place and with the same wrap-around tests, stores
    nothing and raises nothing. *)
Theorem passes_fixed_point (arr : ndarray) (nx ny nz : Z) :
  well_formed arr -> shape arr = [nx; ny; nz] ->
  1 <= nx -> 1 <= ny -> 1 <= nz ->
  exists c, CubeMap arr = Ok c /\
    for_range3 (2 * nx - 1) (2 * ny - 1) (2 * nz - 1)
      (edges_body (2 * nx - 1) (2 * ny - 1) (2 * nz - 1)) c = Ok c /\
    for_range3 (2 * nx - 1) (2 * ny - 1) (2 * nz - 1)
      (faces_body (2 * nx - 1) (2 * ny - 1) (2 * nz - 1)) c = Ok c /\
    for_range3 (2 * nx - 1) (2 * ny - 1) (2 * nz - 1)
      (cubes_body (2 * nx - 1) (2 * ny - 1) (2 * nz - 1)) c = Ok c.
Proof.
  intros Hwf Hsh Hx Hy Hz.
  destruct (CubeMap_returns arr nx ny nz Hwf Hsh Hx Hy Hz)
    as (c & E & _ & Hc & Hcells).
  destruct (complex_sound_complete arr c _ _ _ Hc Hcells) as [Hs Hd].
  assert (HNx : 0 < 2 * nx - 1) by lia.
  assert (HNy : 0 < 2 * ny - 1) by lia.
  assert (HNz : 0 < 2 * nz - 1) by lia.
  exists c. split; [exact E|]. split; [|split];
    apply for_range3_fixed; intros i j k Hi Hj Hk;
    assert (Hr : in_range (2 * nx - 1) (2 * ny - 1) (2 * nz - 1) i j k)
      by (unfold in_range; auto).
  - change (edges_body_snapshot (2 * nx - 1) (2 * ny - 1) (2 * nz - 1)
              c i j k c = Ok c).
    rewrite edges_body_guarded by assumption.
    rewrite (guard_idle arr c _ _ _ i j k _ Hs Hd Hr); [reflexivity|].
    intros E0 Hrule.
    exact (edges_rule_sound arr nx ny nz Hx Hy Hz c i j k Hs Hr E0 Hrule).
  - change (faces_body_snapshot (2 * nx - 1) (2 * ny - 1) (2 * nz - 1)
              c i j k c = Ok c).
    rewrite faces_body_guarded by assumption.
    rewrite (guard_idle arr c _ _ _ i j k _ Hs Hd Hr); [reflexivity|].
    intros E0 Hrule.
    exact (faces_rule_sound arr nx ny nz Hx Hy Hz c i j k Hs Hr E0 Hrule).
  - change (cubes_body_snapshot (2 * nx - 1) (2 * ny - 1) (2 * nz - 1)
              c i j k c = Ok c).
    rewrite cubes_body_guarded by assumption.
    rewrite (guard_idle arr c _ _ _ i j k _ Hs Hd Hr); [reflexivity|].
    intros E0 Hrule.
    exact (cubes_rule_sound arr nx ny nz Hx Hy Hz c i j k Hs Hr E0 Hrule).
Qed.

Lemma passes_fixed_point_witness :
  exists c, CubeMap corner_grid = Ok c /\
    for_range3 (2 * 2 - 1) (2 * 2 - 1) (2 * 1 - 1)
      (edges_body (2 * 2 - 1) (2 * 2 - 1) (2 * 1 - 1)) c = Ok c /\
    for_range3 (2 * 2 - 1) (2 * 2 - 1) (2 * 1 - 1)
      (faces_body (2 * 2 - 1) (2 * 2 - 1) (2 * 1 - 1)) c = Ok c /\
    for_range3 (2 * 2 - 1) (2 * 2 - 1) (2 * 1 - 1)
      (cubes_body (2 * 2 - 1) (2 * 2 - 1) (2 * 1 - 1)) c = Ok c.
Proof.
  apply (passes_fixed_point corner_grid 2 2 1);
    [exact corner_grid_well_formed | reflexivity | lia | lia | lia].
Defined.

(** ** Further properties of [EulerCharacteristic_seq] *)

Lemma sumZ_ext {A : Type} (f g : A -> Z) (l : list A) :
  (forall a, In a l -> f a = g a) -> sumZ (map f l) = sumZ (map g l).
Proof.
  induction l as [|a l IH]; intros H; [reflexivity|].
  unfold sumZ in *. simpl. rewrite (H a) by now left.
  rewrite IH; [reflexivity|]. intros b Hb. apply H. now right.
Qed.

Lemma In_xrange (n i : Z) : In i (xrange n) <-> 0 <= i < n.
Proof. rewrite <- list_elem_of_In. apply elem_of_xrange. Qed.

Lemma sign_flip (n : Z) : sign (n + 1) = - sign n.
Proof.
  unfold sign.
  destruct (Z.eqb_spec ((n + 1) mod 2) 0), (Z.eqb_spec (n mod 2) 0);
    try lia; Z.div_mod_to_equations; lia.
Qed.

(** Along an axis of odd extent the signs cancel but for one. *)
Lemma alternating_sum (n a : Z) :
  1 <= n -> sumZ (map (fun z => sign (a + z)) (xrange (2 * n - 1))) = sign a.
Proof.
  intros Hn. replace n with (Z.of_nat (Z.to_nat (n - 1)) + 1) by lia.
  generalize (Z.to_nat (n - 1)). clear n Hn. intros m.
  induction m as [|m IH].
  - replace (2 * (Z.of_nat 0 + 1) - 1) with 1 by reflexivity.
    unfold xrange. rewrite seqZ_cons by lia. rewrite seqZ_nil by lia.
    unfold sumZ. simpl. rewrite !Z.add_0_r. reflexivity.
  - replace (2 * (Z.of_nat (S m) + 1) - 1)
      with ((2 * (Z.of_nat m + 1) - 1) + 2) by lia.
    unfold xrange in *. rewrite seqZ_app by lia.
    rewrite map_app, sumZ_app, IH.
    rewrite seqZ_cons by lia. rewrite seqZ_cons by lia.
    rewrite seqZ_nil by lia. unfold sumZ. simpl.
    replace (a + Z.succ (0 + (2 * (Z.of_nat m + 1) - 1)))
      with (a + (0 + (2 * (Z.of_nat m + 1) - 1)) + 1) by lia.
    rewrite sign_flip. lia.
Qed.

(** Over a box of odd extents the signs add up to 1. *)
Lemma box_sum (f : Z * Z * Z -> Z) (nx ny nz : Z) :
  1 <= nx -> 1 <= ny -> 1 <= nz ->
  (forall x y z, in_range (2 * nx - 1) (2 * ny - 1) (2 * nz - 1) x y z ->
     f (x, y, z) = sign (x + y + z)) ->
  sumZ (map f (lattice (2 * nx - 1) (2 * ny - 1) (2 * nz - 1))) = 1.
Proof.
  intros Hx Hy Hz Hf. unfold lattice. rewrite sumZ_flat_map.
  rewrite (sumZ_ext _ (fun x => sign (0 + x))).
  { now rewrite alternating_sum. }
  intros x Hxr. apply In_xrange in Hxr. rewrite sumZ_flat_map.
  rewrite (sumZ_ext _ (fun y => sign (0 + x + y))).
  { now rewrite alternating_sum. }
  intros y Hyr. apply In_xrange in Hyr. rewrite map_map.
  rewrite (sumZ_ext _ (fun z => sign (0 + x + y + z))).
  { now rewrite alternating_sum. }
  intros z Hzr. apply In_xrange in Hzr.
  rewrite Hf by (unfold in_range; auto). f_equal; lia.
Qed.

(** X5. A solid box has Euler characteristic 1: from a grid all of whose
    voxels are truthy [CubeMap] returns an array of ones, and
    [EulerCharacteristic_seq] of that array returns 1, whatever the shape
    of the grid. *)
Theorem full_grid_euler_one (arr : ndarray) (nx ny nz : Z) :
  well_formed arr -> shape arr = [nx; ny; nz] ->
  1 <= nx -> 1 <= ny -> 1 <= nz ->
  (forall i j k, in_range nx ny nz i j k -> occupied arr i j k = true) ->
  exists c, CubeMap arr = Ok c /\
    Forall (fun v => v = 1%Q) (data c) /\
    EulerCharacteristic_seq c = Ok 1.
Proof.
  intros Hwf Hsh Hx Hy Hz Hfull.
  destruct (CubeMap_returns arr nx ny nz Hwf Hsh Hx Hy Hz)
    as (c & E & _ & Hc & Hcells).
  assert (Hones : forall x y z,
    in_range (2 * nx - 1) (2 * ny - 1) (2 * nz - 1) x y z ->
    cell c x y z = 1%Q).
  { intros x y z Hr. rewrite (Hcells x y z Hr).
    assert (HP : all_corners arr x y z = true); [|now rewrite HP].
    apply all_corners_spec. intros i j k Hi Hj Hk. apply Hfull.
    destruct Hr as (Hrx & Hry & Hrz).
    repeat split;
      apply (ends_in_range nx x i Hrx Hi)
      || apply (ends_in_range ny y j Hry Hj)
      || apply (ends_in_range nz z k Hrz Hk). }
  exists c. split; [exact E|]. split.
  - apply (Forall_cells _ c _ _ _ Hc); try lia. exact Hones.
  - unfold EulerCharacteristic_seq. rewrite (proj1 Hc). cbn [unpack3 bind].
    rewrite (euler_loops c _ _ _ 0 Hc). cbn [bind].
    rewrite (box_sum (contribution c) nx ny nz Hx Hy Hz); [reflexivity|].
    intros x y z Hr. unfold contribution, sign.
    now rewrite (Hones x y z Hr).
Qed.

Lemma full_grid_euler_one_witness :
  exists c, CubeMap full_grid = Ok c /\
    Forall (fun v => v = 1%Q) (data c) /\
    EulerCharacteristic_seq c = Ok 1.
Proof.
  apply (full_grid_euler_one full_grid 2 2 1);
    [exact full_grid_well_formed | reflexivity | lia | lia | lia
    | exact full_grid_occupied].
Defined.

(** The parity of the coordinate sum is the parity of the dimension. *)
Lemma sum_parity (x y z : Z) : (x + y + z) mod 2 = dim x y z mod 2.
Proof. unfold dim. Z.div_mod_to_equations. lia. Qed.

Lemma sum_by_dim (A : ndarray) (l : list (Z * Z * Z)) :
  sumZ (map (contribution A) l) =
  Z.of_nat (length (List.filter (fun p => is_one A p && has_dim 0 p) l))
  - Z.of_nat (length (List.filter (fun p => is_one A p && has_dim 1 p) l))
  + Z.of_nat (length (List.filter (fun p => is_one A p && has_dim 2 p) l))
  - Z.of_nat (length (List.filter (fun p => is_one A p && has_dim 3 p) l)).
Proof.
  induction l as [|[[x y] z] l IH]; [reflexivity|].
  change (sumZ (map (contribution A) ((x, y, z) :: l)))
    with (contribution A (x, y, z) + sumZ (map (contribution A) l)).
  rewrite IH. cbn [List.filter]. unfold contribution, is_one, has_dim.
  destruct (Qeq_bool (cell A x y z) 1); cbn [andb]; [|lia].
  pose proof (dim_bound x y z) as Hb. pose proof (sum_parity x y z) as Hp.
  destruct (Z.eqb_spec (dim x y z) 0), (Z.eqb_spec (dim x y z) 1),
    (Z.eqb_spec (dim x y z) 2), (Z.eqb_spec (dim x y z) 3),
    (Z.eqb_spec ((x + y + z) mod 2) 0);
    cbn [length]; try lia; exfalso; Z.div_mod_to_equations; lia.
Qed.

(** X6. The Euler characteristic by dimension: on every rank-3 array
    [EulerCharacteristic_seq] returns V - E + F - C, the numbers of cells
    equal to 1 among the vertices (no odd coordinate), the edges (one),
    the faces (two) and the cubes (three). *)
Theorem euler_by_dimension (A : ndarray) (nx ny nz : Z) :
  well_formed A -> shape A = [nx; ny; nz] ->
  EulerCharacteristic_seq A =
  Ok (count_dim A 0 - count_dim A 1 + count_dim A 2 - count_dim A 3).
Proof.
  intros Hwf Hsh.
  destruct (well_formed_wf3 A nx ny nz Hwf Hsh) as [Hwf3 _].
  unfold EulerCharacteristic_seq, count_dim. rewrite Hsh.
  cbn [unpack3 bind].
  rewrite (euler_loops A nx ny nz 0 Hwf3). cbn [bind].
  now rewrite sum_by_dim.
Qed.

Lemma euler_by_dimension_witness :
  EulerCharacteristic_seq full_grid =
  Ok (count_dim full_grid 0 - count_dim full_grid 1
      + count_dim full_grid 2 - count_dim full_grid 3).
Proof.
  apply (euler_by_dimension full_grid 2 2 1);
    [exact full_grid_well_formed | reflexivity].
Defined.

Lemma filter_split {A : Type} (f g : A -> bool) (l : list A) :
  (forall a, g a = negb (f a)) ->
  (length (List.filter f l) + length (List.filter g l))%nat = length l.
Proof.
  intros H. induction l as [|a l IH]; [reflexivity|].
  simpl. rewrite (H a). destruct (f a); simpl; lia.
Qed.

Lemma filter_length (A : Type) (f : A -> bool) (l : list A) :
  (length (List.filter f l) <= length l)%nat.
Proof.
  induction l as [|a l IH]; simpl; [lia|]. destruct (f a); simpl; lia.
Qed.

Lemma length_flat_map_const {A B : Type} (h : A -> list B) (l : list A)
    (m : nat) :
  (forall a, length (h a) = m) ->
  length (flat_map h l) = (length l * m)%nat.
Proof.
  intros H. induction l as [|a l IH]; [reflexivity|].
  simpl. rewrite length_app, H, IH. lia.
Qed.

Lemma length_lattice (nx ny nz : Z) :
  0 <= nx -> 0 <= ny -> 0 <= nz ->
  Z.of_nat (length (lattice nx ny nz)) = nx * ny * nz.
Proof.
  intros Hx Hy Hz. unfold lattice.
  rewrite (length_flat_map_const _ _ (Z.to_nat ny * Z.to_nat nz)).
  - unfold xrange. rewrite length_seqZ. nia.
  - intros x. rewrite (length_flat_map_const _ _ (Z.to_nat nz)).
    + unfold xrange. now rewrite length_seqZ.
    + intros y. rewrite length_map. unfold xrange. now rewrite length_seqZ.
Qed.

(** X7. The Euler characteristic is bounded by the number of cells equal to
    1, in absolute value and with the same parity, and so by the size of
    the array. *)
Theorem euler_bounds (A : ndarray) (nx ny nz : Z) :
  well_formed A -> shape A = [nx; ny; nz] ->
  exists chi, EulerCharacteristic_seq A = Ok chi /\
    - count_ones A <= chi <= count_ones A /\
    (chi - count_ones A) mod 2 = 0 /\
    0 <= count_ones A <= nx * ny * nz.
Proof.
  intros Hwf Hsh.
  destruct (well_formed_wf3 A nx ny nz Hwf Hsh) as (Hwf3 & Hx & Hy & Hz).
  exists (signed_count A).
  split; [now apply (euler_is_signed_count A nx ny nz)|].
  unfold signed_count, count_ones. rewrite Hsh.
  assert (Hodd : forall p, odd_sum p = negb (even_sum p)).
  { intros [[x y] z]. unfold even_sum, odd_sum. symmetry. apply Z.negb_even. }
  pose proof (filter_split even_sum odd_sum
                (List.filter (is_one A) (lattice nx ny nz)) Hodd) as Hsplit.
  pose proof (filter_length _ (is_one A) (lattice nx ny nz)) as Hle.
  pose proof (length_lattice nx ny nz Hx Hy Hz) as Hlen.
  rewrite <- Hsplit in *.
  repeat split; try lia.
  rewrite Nat2Z.inj_add.
  match goal with
  | |- (?e - ?o - (?e + ?o)) mod 2 = 0 =>
      replace (e - o - (e + o)) with ((- o) * 2) by lia
  end.
  apply Z.mod_mul. lia.
Qed.

Lemma euler_bounds_witness :
  exists chi, EulerCharacteristic_seq corner_grid = Ok chi /\
    - count_ones corner_grid <= chi <= count_ones corner_grid /\
    (chi - count_ones corner_grid) mod 2 = 0 /\
    0 <= count_ones corner_grid <= 2 * 2 * 1.
Proof.
  apply (euler_bounds corner_grid 2 2 1);
    [exact corner_grid_well_formed | reflexivity].
Defined.

(** ** The two functions composed *)

Lemma in_lattice (n0 n1 n2 x y z : Z) :
  In (x, y, z) (lattice n0 n1 n2) -> in_range n0 n1 n2 x y z.
Proof.
  unfold lattice. rewrite in_flat_map. intros (x' & Hx & H).
  rewrite in_flat_map in H. destruct H as (y' & Hy & H).
  rewrite in_map_iff in H. destruct H as (z' & [= -> -> ->] & Hz).
  apply In_xrange in Hx, Hy, Hz. unfold in_range. auto.
Qed.

(** X8. The Euler characteristic of the complex, read off the grid: on the
    array [CubeMap] returns, [EulerCharacteristic_seq] returns
    V - E + F - C, where V counts the occupied voxels, E the pairs of
    occupied voxels adjacent along an axis, F the fully occupied 2 x 2
    squares and C the fully occupied 2 x 2 x 2 blocks, none of them taken
    across the periodic boundary. *)
Theorem euler_of_complex (arr : ndarray) (nx ny nz : Z) :
  well_formed arr -> shape arr = [nx; ny; nz] ->
  1 <= nx -> 1 <= ny -> 1 <= nz ->
  exists c, CubeMap arr = Ok c /\
    EulerCharacteristic_seq c =
    Ok (count_complex arr nx ny nz 0 - count_complex arr nx ny nz 1
        + count_complex arr nx ny nz 2 - count_complex arr nx ny nz 3).
Proof.
  intros Hwf Hsh Hx Hy Hz.
  destruct (CubeMap_returns arr nx ny nz Hwf Hsh Hx Hy Hz)
    as (c & E & _ & Hc & Hcells).
  exists c. split; [exact E|].
  unfold EulerCharacteristic_seq. rewrite (proj1 Hc). cbn [unpack3 bind].
  rewrite (euler_loops c _ _ _ 0 Hc). cbn [bind]. rewrite sum_by_dim.
  unfold count_complex.
  assert (Hsame : forall d,
    List.filter (fun p => is_one c p && has_dim d p)
      (lattice (2 * nx - 1) (2 * ny - 1) (2 * nz - 1)) =
    List.filter (fun p => in_complex arr p && has_dim d p)
      (lattice (2 * nx - 1) (2 * ny - 1) (2 * nz - 1))).
  { intros d. apply filter_ext_in. intros [[x y] z] Hin.
    apply in_lattice in Hin. unfold is_one, in_complex.
    rewrite (Hcells x y z Hin).
    now destruct (all_corners arr x y z). }
  now rewrite !Hsame.
Qed.

Lemma euler_of_complex_witness :
  exists c, CubeMap corner_grid = Ok c /\
    EulerCharacteristic_seq c =
    Ok (count_complex corner_grid 2 2 1 0 - count_complex corner_grid 2 2 1 1
        + count_complex corner_grid 2 2 1 2
        - count_complex corner_grid 2 2 1 3).
Proof.
  apply (euler_of_complex corner_grid 2 2 1);
    [exact corner_grid_well_formed | reflexivity | lia | lia | lia].
Defined.

(** * Properties of the halo catalogue readers *)
Module HalosFacts.
Import Halos.

Section ListReader.
Context {F : Type} {py_float : PyFloat F} {py_str : PyStr}.
Variables M_grid solar_masses_per_gram : F.
Variable redshift_text : string -> string.

Local Abbreviation line_of := (list_line M_grid solar_masses_per_gram).
Local Abbreviation loop := (list_loop M_grid solar_masses_per_gram).
Local Abbreviation read fileinput :=
  (HaloList_read_from_file M_grid solar_masses_per_gram fileinput
     redshift_text).

(** A line that is read leaves the list as it is or appends one halo. *)
Lemma list_line_cases (mn : F) (mm mg : option F) (vals : list string)
    (halos halos' : list Halo) :
  line_of mn mm mg vals halos = Return halos' ->
  halos' = halos \/ exists halo, halos' = halos ++ [halo].
Proof.
  unfold list_line, chain. intros H.
  destruct (item_from_end vals 3) as [t|]; [|discriminate].
  destruct (to_float float t) as [g|]; [|discriminate].
  destruct (selected g mn mm mg) as [[|]|]; try discriminate.
  - destruct (list_halo M_grid solar_masses_per_gram vals g) as [h|];
      [|discriminate].
    injection H as <-. eauto.
  - injection H as <-. auto.
Qed.



(** How a call of [read_from_file] unfolds: it raises before the loop,
    with an empty list, or it is the loop from line number 1 and an empty
    list on. *)
Lemma read_unfold (fileinput : string -> option (list string))
    (self : HaloList) (filename : string) (min_select_mass : F)
    (max_select_mass : option F) (max_select_number startline : Z) :
  (exists e, read fileinput self filename min_select_mass max_select_mass
               max_select_number startline
             = (mk_HaloList [] (Some filename) (hl_z self), Raises e)) \/
  (exists z e, read fileinput self filename min_select_mass max_select_mass
                 max_select_number startline
               = (mk_HaloList [] (Some filename) (Some z), Raises e)) \/
  (exists z mn mg lines,
     fileinput filename = Some lines /\
     (forall mx, max_select_mass = Some mx -> ftruthy mx = false ->
                 mg = None) /\
     read fileinput self filename min_select_mass max_select_mass
       max_select_number startline
     = (mk_HaloList
          (fst (loop mn max_select_mass mg max_select_number startline
                  lines 1 []))
          (Some filename) (Some z),
        snd (loop mn max_select_mass mg max_select_number startline
               lines 1 []))).
Proof.
  unfold HaloList_read_from_file.
  destruct (to_float float (redshift_text filename)) as [z|e]; [|eauto].
  right.
  destruct (divide min_select_mass (fmul M_grid solar_masses_per_gram))
    as [mn|e]; [|eauto].
  destruct max_select_mass as [mx|].
  - destruct (ftruthy mx) eqn:Ht.
    + destruct (divide mx (fmul M_grid solar_masses_per_gram)) as [g|e];
        simpl; [|eauto].
      destruct (fileinput filename) as [lines|] eqn:El; [|eauto].
      right. exists z, mn, (Some g), lines.
      split; [reflexivity|]. split.
      * intros mx' [= <-] Hf. congruence.
      * now destruct (list_loop _ _ _ _ _ _ _ _ _ _).
    + simpl. destruct (fileinput filename) as [lines|] eqn:El; [|eauto].
      right. exists z, mn, None, lines.
      split; [reflexivity|]. split; [reflexivity|].
      now destruct (list_loop _ _ _ _ _ _ _ _ _ _).
  - simpl. destruct (fileinput filename) as [lines|] eqn:El; [|eauto].
    right. exists z, mn, None, lines.
    split; [reflexivity|]. split; [reflexivity|].
    now destruct (list_loop _ _ _ _ _ _ _ _ _ _).
Qed.

Section Loop.
Variables (mn : F) (mm mg : option F) (cap sl : Z).

Lemma loop_cap (lines : list string) :
  forall (n : Z) (halos : list Halo),
    0 <= cap -> Z.of_nat (length halos) <= cap ->
    Z.of_nat (length (fst (loop mn mm mg cap sl lines n halos))) <= cap.
Proof.
  induction lines as [|line rest IH]; intros n halos Hcap Hlen; simpl;
    [assumption|].
  destruct (n <? sl); [now apply IH|].
  destruct ((0 <=? cap) && (cap <=? Z.of_nat (length halos))) eqn:Ecap;
    [assumption|].
  destruct (list_line _ _ _ _ _ _ _) as [halos'|e] eqn:El; [|assumption].
  apply IH; [assumption|].
  apply andb_false_iff in Ecap as [Ecap|Ecap];
    [apply Z.leb_gt in Ecap; lia | apply Z.leb_gt in Ecap].
  apply list_line_cases in El as [->|[halo ->]]; [lia|].
  rewrite length_app. simpl. lia.
Qed.

Lemma loop_false (lines : list string) :
  forall (n : Z) (halos : list Halo),
    (0 <= cap -> Z.of_nat (length halos) <= cap) ->
    snd (loop mn mm mg cap sl lines n halos) = Return false ->
    0 <= cap /\
    Z.of_nat (length (fst (loop mn mm mg cap sl lines n halos))) = cap.
Proof.
  induction lines as [|line rest IH]; intros n halos Hlen; simpl;
    [discriminate|].
  destruct (n <? sl); [now apply IH|].
  destruct ((0 <=? cap) && (cap <=? Z.of_nat (length halos))) eqn:Ecap.
  - intros _. apply andb_true_iff in Ecap as [E1 E2].
    apply Z.leb_le in E1, E2. simpl. split; [assumption|].
    specialize (Hlen E1). lia.
  - destruct (list_line _ _ _ _ _ _ _) as [halos'|e] eqn:El;
      [|discriminate].
    apply IH. intros Hcap.
    apply andb_false_iff in Ecap as [Ecap|Ecap];
      [apply Z.leb_gt in Ecap; lia | apply Z.leb_gt in Ecap].
    apply list_line_cases in El as [->|[halo ->]]; [lia|].
    rewrite length_app. simpl. lia.
Qed.

(** Past [startline] the line number plays no part. *)
Lemma loop_linenumber (lines : list string) :
  forall (n n' : Z) (halos : list Halo),
    sl <= n -> sl <= n' ->
    loop mn mm mg cap sl lines n halos = loop mn mm mg cap sl lines n' halos.
Proof.
  induction lines as [|line rest IH]; intros n n' halos Hn Hn'; simpl;
    [reflexivity|].
  destruct (Z.ltb_spec n sl), (Z.ltb_spec n' sl); try lia.
  destruct ((0 <=? cap) && (cap <=? Z.of_nat (length halos)));
    [reflexivity|].
  destruct (list_line _ _ _ _ _ _ _) as [halos'|e]; [|reflexivity].
  apply IH; lia.
Qed.

(** Before [startline] the lines are passed over. *)
Lemma loop_skip (lines : list string) :
  forall (n : Z) (halos : list Halo),
    n <= sl ->
    loop mn mm mg cap sl lines n halos =
    loop mn mm mg cap sl (skipn (Z.to_nat (sl - n)) lines) sl halos.
Proof.
  induction lines as [|line rest IH]; intros n halos Hn.
  - now rewrite skipn_nil.
  - destruct (Z.eq_dec n sl) as [->|Hne].
    + now rewrite Z.sub_diag.
    + replace (Z.to_nat (sl - n)) with (S (Z.to_nat (sl - (n + 1)))) by lia.
      simpl. destruct (Z.ltb_spec n sl); [|lia]. apply IH. lia.
Qed.

End Loop.


(** X9. [HaloList.read_from_file], the cap: with [max_select_number >= 0] the
    list never holds more than [max_select_number] halos when the call
    ends, whether it returns or raises. *)
Theorem HaloList_cap (fileinput : string -> option (list string))
    (self : HaloList) (filename : string) (min_select_mass : F)
    (max_select_mass : option F) (max_select_number startline : Z) :
  0 <= max_select_number ->
  Z.of_nat (length (hl_halos (fst
    (read fileinput self filename min_select_mass max_select_mass
       max_select_number startline)))) <= max_select_number.
Proof.
  intros Hcap.
  destruct (read_unfold fileinput self filename min_select_mass
              max_select_mass max_select_number startline)
    as [[e ->]|[(z & e & ->)|(z & mn & mg & lines & _ & _ & ->)]];
    simpl; try lia.
  apply loop_cap; simpl; lia.
Qed.

(** X10. [HaloList.read_from_file] returns [False] only when the cap stopped
    it: [max_select_number] is then not negative, and the list holds
    exactly that many halos. *)
Theorem HaloList_false (fileinput : string -> option (list string))
    (self : HaloList) (filename : string) (min_select_mass : F)
    (max_select_mass : option F) (max_select_number startline : Z) :
  snd (read fileinput self filename min_select_mass max_select_mass
         max_select_number startline) = Return false ->
  0 <= max_select_number /\
  Z.of_nat (length (hl_halos (fst
    (read fileinput self filename min_select_mass max_select_mass
       max_select_number startline)))) = max_select_number.
Proof.
  destruct (read_unfold fileinput self filename min_select_mass
              max_select_mass max_select_number startline)
    as [[e ->]|[(z & e & ->)|(z & mn & mg & lines & _ & _ & ->)]];
    simpl; try discriminate.
  apply loop_false. simpl. lia.
Qed.



(** X13. [HaloList.read_from_file] and [startline]: what a call does only
    depends on the lines of the file from [startline] on, numbered from
    1; and every [startline] up to 1, the default 0 among them, reads
    from the first line. *)
Theorem HaloList_startline (fileinput fileinput' : string -> option (list string))
    (self : HaloList) (filename : string) (min_select_mass : F)
    (max_select_mass : option F) (max_select_number startline : Z)
    (lines lines' : list string) :
  fileinput filename = Some lines -> fileinput' filename = Some lines' ->
  (skipn (Z.to_nat (startline - 1)) lines
   = skipn (Z.to_nat (startline - 1)) lines' ->
   read fileinput self filename min_select_mass max_select_mass
     max_select_number startline
   = read fileinput' self filename min_select_mass max_select_mass
       max_select_number startline) /\
  (forall startline', startline <= 1 -> startline' <= 1 ->
   read fileinput self filename min_select_mass max_select_mass
     max_select_number startline
   = read fileinput self filename min_select_mass max_select_mass
       max_select_number startline').
Proof.
  intros Hfile Hfile'.
  assert (Hfrom : forall mn mg sl (ls : list string),
    loop mn max_select_mass mg max_select_number sl ls 1 []
    = loop mn max_select_mass mg max_select_number sl
        (skipn (Z.to_nat (sl - 1)) ls) (Z.max sl 1) []).
  { intros mn mg sl ls. destruct (Z.le_gt_cases 1 sl) as [Hs|Hs].
    - rewrite Z.max_l by lia. now apply loop_skip.
    - replace (Z.to_nat (sl - 1)) with 0%nat by lia.
      simpl. apply loop_linenumber; lia. }
  split.
  - intros Hsame. unfold HaloList_read_from_file.
    rewrite Hfile, Hfile'.
    destruct (to_float float (redshift_text filename)) as [z|];
      [|reflexivity].
    destruct (divide min_select_mass _) as [mn|]; [|reflexivity].
    destruct (match max_select_mass with Some _ => _ | None => _ end)
      as [mg|]; [|reflexivity].
    now rewrite (Hfrom _ _ _ lines), (Hfrom _ _ _ lines'), Hsame.
  - intros startline' Hs Hs'. unfold HaloList_read_from_file.
    rewrite Hfile.
    destruct (to_float float (redshift_text filename)) as [z|];
      [|reflexivity].
    destruct (divide min_select_mass _) as [mn|]; [|reflexivity].
    destruct (match max_select_mass with Some _ => _ | None => _ end)
      as [mg|]; [|reflexivity].
    assert (Hloop : forall ls (n : Z) (halos : list Halo), 1 <= n ->
      loop mn max_select_mass mg max_select_number startline ls n halos
      = loop mn max_select_mass mg max_select_number startline' ls n halos).
    { induction ls as [|line rest IH]; intros n halos Hn; simpl;
        [reflexivity|].
      destruct (Z.ltb_spec n startline), (Z.ltb_spec n startline');
        try lia.
      destruct ((0 <=? max_select_number)
                && (max_select_number <=? Z.of_nat (length halos)));
        [reflexivity|].
      destruct (list_line _ _ _ _ _ _ _); [|reflexivity].
      apply IH. lia. }
    now rewrite Hloop by lia.
Qed.
End ListReader.

Section RockstarReader.
Context {F : Type} {py_float : PyFloat F} {py_str : PyStr}.

Local Abbreviation rloop := rockstar_loop.

(** What the statements inside the loop raise is never a [TypeError]. *)
Lemma index_raises (x : string) (l : list string) (e : exception) :
  index x l = Raises e -> e <> TypeError.
Proof.
  induction l as [|y l IH]; simpl; [congruence|].
  destruct (String.eqb y x); [discriminate|].
  destruct (index x l); simpl; [discriminate|].
  intros [= <-]. now apply IH.
Qed.

Lemma item_raises {A : Type} (l : list A) (i : nat) (e : exception) :
  item l i = Raises e -> e <> TypeError.
Proof. unfold item. destruct (nth_error l i); congruence. Qed.

Lemma item_from_end_raises {A : Type} (l : list A) (k : nat)
    (e : exception) :
  item_from_end l k = Raises e -> e <> TypeError.
Proof.
  unfold item_from_end. destruct (length l <? k)%nat; [congruence|].
  apply item_raises.
Qed.

Lemma to_float_raises (conv : string -> option F) (s : string)
    (e : exception) :
  to_float conv s = Raises e -> e <> TypeError.
Proof. unfold to_float. destruct (conv s); congruence. Qed.

Lemma floats_raises (conv : string -> option F) (l : list string)
    (e : exception) :
  floats conv l = Raises e -> e <> TypeError.
Proof.
  induction l as [|s l IH]; simpl; [congruence|].
  destruct (to_float conv s) eqn:E; simpl; [|intros [= <-]; eauto using to_float_raises].
  destruct (floats conv l); simpl; [discriminate|].
  intros [= <-]. now apply IH.
Qed.

Lemma divide_raises (a b : F) (e : exception) :
  divide a b = Raises e -> e <> TypeError.
Proof. unfold divide. destruct (fdiv a b); congruence. Qed.

Lemma to_int_raises (x : F) (e : exception) :
  to_int x = Raises e -> e <> TypeError.
Proof. unfold to_int. destruct (int_round x); congruence. Qed.

Ltac raises :=
  repeat match goal with
  | |- chain ?m _ = Raises _ -> _ =>
      let E := fresh "E" in
      destruct m eqn:E; simpl;
      [|intros [= <-];
        eauto using index_raises, item_raises, item_from_end_raises,
          to_float_raises, floats_raises, divide_raises, to_int_raises]
  | |- Return _ = Raises _ -> _ => discriminate
  | |- _ = Raises _ -> _ =>
      solve [eauto using index_raises, item_raises, item_from_end_raises,
               to_float_raises, floats_raises, divide_raises, to_int_raises]
  end.

Lemma header_columns_raises (mass_def line : string) (e : exception) :
  header_columns mass_def line = Raises e -> e <> TypeError.
Proof. unfold header_columns. raises. Qed.

Lemma rockstar_halo_raises (cols : columns) (pm : F) (vals : list string)
    (e : exception) :
  rockstar_halo cols pm vals = Raises e -> e <> TypeError.
Proof. unfold rockstar_halo. raises. Qed.

(** While the list is no longer than [max_select_number], the loop leaves
    it alone and binds no [halo]. *)
Lemma rloop_capped (cap : Z) (lines : list string) :
  forall (n : nat) (self : HaloRockstar) (cols : option columns)
         (bound : bool),
    Z.of_nat (length (rs_halos self)) <= cap ->
    rs_halos (fst (fst (rloop cap lines n self cols bound))) = rs_halos self
    /\ snd (fst (rloop cap lines n self cols bound)) = bound.
Proof.
  induction lines as [|line rest IH]; intros n self cols bound Hlen;
    simpl; [auto|].
  destruct (n =? 0)%nat.
  { destruct (header_columns _ _); [now apply IH | auto]. }
  destruct (n =? 1)%nat.
  { destruct (chain _ _); [|auto].
    match goal with
    | |- context [rockstar_loop _ _ _ ?s _ _] =>
        destruct (IH (S n) s cols bound Hlen) as [-> ->]
    end. auto. }
  destruct (n =? 2)%nat.
  { destruct (chain _ _); [|auto].
    match goal with
    | |- context [rockstar_loop _ _ _ ?s _ _] =>
        destruct (IH (S n) s cols bound Hlen) as [-> ->]
    end. auto. }
  destruct (n =? 5)%nat.
  { destruct (chain _ _); [|auto].
    match goal with
    | |- context [rockstar_loop _ _ _ ?s _ _] =>
        destruct (IH (S n) s cols bound Hlen) as [-> ->]
    end. auto. }
  destruct (15 <? n)%nat; [|now apply IH].
  destruct (Z.ltb_spec cap (Z.of_nat (length (rs_halos self)))); [lia|].
  auto.
Qed.

Lemma rloop_raises (cap : Z) (lines : list string) :
  forall (n : nat) (self self' : HaloRockstar) (cols : option columns)
         (bound b' : bool) (e : exception),
    rloop cap lines n self cols bound = (self', b', Raised e) ->
    e <> TypeError.
Proof.
  induction lines as [|line rest IH]; intros n self self' cols bound b' e;
    simpl; [discriminate|].
  destruct (n =? 0)%nat.
  { destruct (header_columns _ _) eqn:E; [apply IH|].
    intros [= _ _ <-]. eauto using header_columns_raises. }
  destruct (n =? 1)%nat.
  { match goal with
    | |- context [match ?m with Return _ => _ | Raises _ => _ end] =>
        assert (Hm : forall e0, m = Raises e0 -> e0 <> TypeError)
          by (intros e0; raises);
        destruct m; [apply IH | intros [= _ _ <-]; eauto]
    end. }
  destruct (n =? 2)%nat.
  { match goal with
    | |- context [match ?m with Return _ => _ | Raises _ => _ end] =>
        assert (Hm : forall e0, m = Raises e0 -> e0 <> TypeError)
          by (intros e0; raises);
        destruct m; [apply IH | intros [= _ _ <-]; eauto]
    end. }
  destruct (n =? 5)%nat.
  { match goal with
    | |- context [match ?m with Return _ => _ | Raises _ => _ end] =>
        assert (Hm : forall e0, m = Raises e0 -> e0 <> TypeError)
          by (intros e0; raises);
        destruct m; [apply IH | intros [= _ _ <-]; eauto]
    end. }
  destruct (15 <? n)%nat; [|apply IH].
  destruct (cap <? Z.of_nat (length (rs_halos self))); [|discriminate].
  destruct cols as [c|]; [|intros [= _ _ <-]; discriminate].
  destruct (rs_part_mass self) as [pm|]; [|intros [= _ _ <-]; discriminate].
  destruct (rockstar_halo c pm (split line)) eqn:E; [apply IH|].
  intros [= _ _ <-]. eauto using rockstar_halo_raises.
Qed.

(** Once the list is longer than [max_select_number] nothing stops the
    loop: when it gets through the lines it has appended one halo per
    line of index above 15. *)
Lemma rloop_uncapped (cap : Z) (lines : list string) :
  forall (n : nat) (self self' : HaloRockstar) (cols : option columns)
         (bound b' : bool),
    cap < Z.of_nat (length (rs_halos self)) ->
    rloop cap lines n self cols bound = (self', b', Finished) ->
    length (rs_halos self') =
    (length (rs_halos self) + (n + length lines - Nat.max n 16))%nat /\
    ((0 < n + length lines - Nat.max n 16)%nat -> b' = true) /\
    ((n + length lines - Nat.max n 16 = 0)%nat -> b' = bound).
Proof.
  induction lines as [|line rest IH]; intros n self self' cols bound b' Hlen;
    simpl.
  { intros [= <- <-]. repeat split; lia || auto. }
  assert (Hnext : forall s c b,
    rs_halos s = rs_halos self -> (n <= 15)%nat ->
    rloop cap rest (S n) s c b = (self', b', Finished) ->
    length (rs_halos self') =
    (length (rs_halos self) + (n + S (length rest) - Nat.max n 16))%nat /\
    ((0 < n + S (length rest) - Nat.max n 16)%nat -> b' = true) /\
    ((n + S (length rest) - Nat.max n 16 = 0)%nat -> b' = b)).
  { intros s c b Hs Hn Hl.
    apply IH in Hl; [|rewrite Hs; exact Hlen].
    rewrite Hs in Hl. destruct Hl as (H1 & H2 & H3).
    repeat split; [lia | intros; apply H2; lia | intros; apply H3; lia]. }
  destruct (Nat.eqb_spec n 0).
  { destruct (header_columns _ _); [|discriminate].
    apply Hnext; [reflexivity | lia]. }
  destruct (Nat.eqb_spec n 1).
  { destruct (chain _ _); [|discriminate]. apply Hnext; [reflexivity | lia]. }
  destruct (Nat.eqb_spec n 2).
  { destruct (chain _ _); [|discriminate]. apply Hnext; [reflexivity | lia]. }
  destruct (Nat.eqb_spec n 5).
  { destruct (chain _ _); [|discriminate]. apply Hnext; [reflexivity | lia]. }
  destruct (Nat.ltb_spec 15 n); [|apply Hnext; [reflexivity | lia]].
  destruct (Z.ltb_spec cap (Z.of_nat (length (rs_halos self)))); [|lia].
  destruct cols as [c|]; [|discriminate].
  destruct (rs_part_mass self) as [pm|]; [|discriminate].
  destruct (rockstar_halo c pm (split line)) as [halo|]; [|discriminate].
  intros Hl. apply IH in Hl.
  - simpl in Hl. rewrite length_app in Hl. simpl in Hl.
    destruct Hl as (H1 & H2 & H3).
    repeat split; [lia | | intros; lia].
    intros _.
    destruct (Nat.eq_dec (n + length rest - Nat.max n 15)%nat 0%nat)
      as [E0|E0];
      [now apply H3 | apply H2; lia].
  - simpl. rewrite length_app. simpl. lia.
Qed.

(** X14. [HaloRockstar.read_from_file] never returns: whatever the file and
    the arguments, the call ends in an exception, and so does the
    constructor when it is given a file name. *)
Theorem HaloRockstar_never_returns
    (fileinput : string -> option (list string)) (self : HaloRockstar)
    (filename mass_def : string) (max_select_number : Z) :
  (exists e, snd (HaloRockstar_read_from_file fileinput self filename
                    max_select_number) = Raises e) /\
  (filename <> ""%string ->
   exists e, snd (HaloRockstar_init fileinput (Some filename) mass_def
                    max_select_number) = Raises e).
Proof.
  assert (Hread : forall s, exists e,
    snd (HaloRockstar_read_from_file fileinput s filename
           max_select_number) = Raises e).
  { intros s. unfold HaloRockstar_read_from_file.
    destruct (fileinput filename) as [lines|]; [|simpl; eauto].
    destruct (rockstar_loop _ _ _ _ _ _) as [[s' b] [|e]]; [|simpl; eauto].
    destruct b; simpl; eauto. }
  split; [apply Hread|].
  intros Hname. unfold HaloRockstar_init.
  destruct (String.eqb_spec filename ""); [contradiction|].
  match goal with
  | |- context [HaloRockstar_read_from_file _ ?s _ _] =>
      destruct (Hread s) as [e He];
      destruct (HaloRockstar_read_from_file fileinput s filename
                  max_select_number) as [s' o]
  end.
  simpl in *. subst o. simpl. eauto.
Qed.

(** X15. [HaloRockstar.read_from_file], the cap: the test that guards the
    reading of a data line is [len(self.halos) > max_select_number], so
    that a list no longer than [max_select_number], the empty list of a
    new object with any [max_select_number >= 0] among them, stops the
    loop at the first data line: no halo is read. *)
Theorem HaloRockstar_cap_reads_nothing
    (fileinput : string -> option (list string)) (self : HaloRockstar)
    (filename : string) (max_select_number : Z) :
  Z.of_nat (length (rs_halos self)) <= max_select_number ->
  rs_halos (fst (HaloRockstar_read_from_file fileinput self filename
                   max_select_number)) = rs_halos self /\
  snd (HaloRockstar_read_from_file fileinput self filename
         max_select_number) <> Raises TypeError.
Proof.
  intros Hlen. unfold HaloRockstar_read_from_file.
  destruct (fileinput filename) as [lines|]; [|simpl; split; congruence].
  match goal with
  | |- context [rockstar_loop _ _ _ ?s _ _] =>
      pose proof (rloop_capped max_select_number lines 0 s None false Hlen)
        as [Hh Hb];
      pose proof (fun s' b' e =>
                    rloop_raises max_select_number lines 0 s s' None false
                      b' e) as Hr;
      destruct (rockstar_loop max_select_number lines 0 s None false)
        as [[s' b] ending]
  end.
  simpl in Hh, Hb. subst b.
  destruct ending as [|e]; simpl; split; try assumption; try congruence.
  intros [= ->]. now apply (Hr s' false TypeError).
Qed.

(** X16. [HaloRockstar.read_from_file] without a cap: when the list is longer
    than [max_select_number], as with the default -1, and the call gets
    through the file, which shows in the [TypeError] of [len(halo)], the
    file has more than 16 lines and one halo was appended for each line
    after the sixteenth. *)
Theorem HaloRockstar_reads_every_line
    (fileinput : string -> option (list string)) (self : HaloRockstar)
    (filename : string) (max_select_number : Z) (lines : list string) :
  max_select_number < Z.of_nat (length (rs_halos self)) ->
  fileinput filename = Some lines ->
  snd (HaloRockstar_read_from_file fileinput self filename
         max_select_number) = Raises TypeError ->
  (16 < length lines)%nat /\
  length (rs_halos (fst (HaloRockstar_read_from_file fileinput self filename
                           max_select_number))) =
  (length (rs_halos self) + (length lines - 16))%nat.
Proof.
  intros Hlen Hfile. unfold HaloRockstar_read_from_file. rewrite Hfile.
  match goal with
  | |- context [rockstar_loop _ _ _ ?s _ _] =>
      pose proof (fun s' b' =>
                    rloop_uncapped max_select_number lines 0 s s' None false
                      b' Hlen) as Hu;
      pose proof (fun s' b' e =>
                    rloop_raises max_select_number lines 0 s s' None false
                      b' e) as Hr;
      destruct (rockstar_loop max_select_number lines 0 s None false)
        as [[s' b] ending]
  end.
  destruct ending as [|e]; simpl.
  - destruct (Hu s' b eq_refl) as (H1 & H2 & H3). simpl in H1, H2, H3.
    destruct b; [|discriminate]. intros _.
    assert (length lines - 16 <> 0)%nat.
    { intros H0. specialize (H3 H0). discriminate. }
    split; [lia | exact H1].
  - intros [= ->]. exfalso. now apply (Hr s' b TypeError).
Qed.
End RockstarReader.

(** ** The theorems at work on the sample catalogues *)
Section Witnesses.
Import HalosSample.

Local Abbreviation sample_read :=
  (HaloList_read_from_file (py_float := int_float) (py_str := space_str)
     1 1 list_files list_redshift (mk_HaloList [] None None)).
Local Abbreviation sample_rockstar :=
  (HaloRockstar_read_from_file (py_float := int_float)
     (py_str := space_str) rockstar_files
     (mk_HaloRockstar [] "vir" None None None None)).

Lemma HaloList_cap_witness :
  Z.of_nat (length (hl_halos (fst
    (sample_read "7halo.dat"%string 10 None 2 0)))) <= 2.
Proof.
  apply (HaloList_cap (py_float := int_float) (py_str := space_str)). lia.
Defined.

Lemma HaloList_false_witness :
  0 <= 2 /\
  Z.of_nat (length (hl_halos (fst
    (sample_read "7halo.dat"%string 10 None 2 0)))) = 2.
Proof.
  apply (HaloList_false (py_float := int_float) (py_str := space_str)).
  reflexivity.
Defined.



Lemma HaloList_startline_witness :
  (skipn (Z.to_nat (2 - 1))
     [halo_line "50"; halo_line "5"; halo_line "80"; halo_line "90"]
   = skipn (Z.to_nat (2 - 1))
       [""%string; halo_line "5"; halo_line "80"; halo_line "90"] ->
   sample_read "7halo.dat"%string 10 None (-1) 2
   = HaloList_read_from_file (py_float := int_float) (py_str := space_str)
       1 1
       (fun _ => Some [""%string; halo_line "5"; halo_line "80";
                       halo_line "90"])
       list_redshift (mk_HaloList [] None None) "7halo.dat"%string
       10 None (-1) 2) /\
  (forall startline', 2 <= 1 -> startline' <= 1 ->
   sample_read "7halo.dat"%string 10 None (-1) 2
   = sample_read "7halo.dat"%string 10 None (-1) startline').
Proof.
  apply (HaloList_startline (py_float := int_float) (py_str := space_str)
           1 1 list_redshift list_files
           (fun _ => Some [""%string; halo_line "5"; halo_line "80";
                           halo_line "90"])
           (mk_HaloList [] None None) "7halo.dat"%string 10 None (-1) 2
           [halo_line "50"; halo_line "5"; halo_line "80"; halo_line "90"]
           [""%string; halo_line "5"; halo_line "80"; halo_line "90"]);
    reflexivity.
Defined.

Lemma HaloRockstar_never_returns_witness :
  (exists e, snd (sample_rockstar "halos.list"%string 3) = Raises e) /\
  (exists e, snd (HaloRockstar_init (py_float := int_float)
                    (py_str := space_str) rockstar_files
                    (Some "halos.list"%string) "vir" 3) = Raises e).
Proof.
  destruct (HaloRockstar_never_returns (py_float := int_float)
              (py_str := space_str) rockstar_files
              (mk_HaloRockstar [] "vir" None None None None)
              "halos.list" "vir" 3) as [H1 H2].
  split; [exact H1 | apply H2; discriminate].
Defined.

Lemma HaloRockstar_cap_reads_nothing_witness :
  rs_halos (fst (sample_rockstar "halos.list"%string 0)) = [] /\
  snd (sample_rockstar "halos.list"%string 0) <> Raises TypeError.
Proof.
  apply (HaloRockstar_cap_reads_nothing (py_float := int_float)
           (py_str := space_str) rockstar_files
           (mk_HaloRockstar [] "vir" None None None None)).
  simpl. lia.
Defined.

Lemma HaloRockstar_reads_every_line_witness :
  (16 < length rockstar_lines)%nat /\
  length (rs_halos (fst (sample_rockstar "halos.list"%string (-1)))) =
  (length (@nil (Halo (F := Z))) + (length rockstar_lines - 16))%nat.
Proof.
  apply (HaloRockstar_reads_every_line (py_float := int_float)
           (py_str := space_str) rockstar_files
           (mk_HaloRockstar [] "vir" None None None None)
           "halos.list" (-1) rockstar_lines);
    [simpl; lia | reflexivity | reflexivity].
Defined.
End Witnesses.
End HalosFacts.
